(** * cam: the lifecycle controller of src/cam/main.cpp

    A shallow embedding of [CamApp], [signalHandler] and [main].  The
    collaborators that main.cpp only calls (OptionsParser, CameraManager,
    CameraSession) are represented by the answers they give ([Env]) and by
    the calls made on them ([Effect]); the event loop, whose code is not
    in main.cpp either, follows the design document.

    The [CamApp] objects live in a heap indexed by address, so that the
    static [CamApp::app_] and the receivers of the signals are pointers as
    in the source.  [loopUsers_] is an integer kept in [0, 2^32).  The
    functions are written in a state monad whose results tell a
    fall-through from a [return], from a loop blocked for ever and from a
    dereference of a pointer to no object. *)

From Stdlib Require Import ZArith String DecimalString Lia.
From stdpp Require Import base list.

Local Open Scope Z_scope.

(** ** Constants of the C library (Linux <errno.h>, <stdlib.h>, <signal.h>) *)

Definition EINTR : Z := 4.
Definition ENODEV : Z := 19.
Definition EINVAL : Z := 22.
Definition EXIT_FAILURE : Z := 1.
Definition SIGINT : Z := 2.

(** ** [unsigned int] arithmetic: values live in [0, 2^32) and wrap. *)

Definition UINT_BITS : Z := 32.
Definition UINT_MAX : Z := 2 ^ UINT_BITS - 1.

Definition uint_wrap (z : Z) : Z := z mod 2 ^ UINT_BITS.
Definition uint_incr (u : Z) : Z := uint_wrap (u + 1).
Definition uint_decr (u : Z) : Z := uint_wrap (u - 1).
Definition is_uint (u : Z) : Prop := 0 <= u <= UINT_MAX.

(** [operator<<(unsigned int)]: decimal digits. *)
Definition show_uint (u : Z) : string :=
  NilZero.string_of_uint (N.to_uint (Z.to_N u)).

(** ** Options (main.h, options.h) *)

Inductive Opt : Type :=
| OptCamera | OptCapture | OptFile | OptStream | OptHelp | OptInfo
| OptList | OptListControls | OptListProperties | OptMonitor
| OptStrictFormats | OptMetadata.

Definition Opt_eqb (a b : Opt) : bool :=
  match a, b with
  | OptCamera, OptCamera | OptCapture, OptCapture | OptFile, OptFile
  | OptStream, OptStream | OptHelp, OptHelp | OptInfo, OptInfo
  | OptList, OptList | OptListControls, OptListControls
  | OptListProperties, OptListProperties | OptMonitor, OptMonitor
  | OptStrictFormats, OptStrictFormats | OptMetadata, OptMetadata => true
  | _, _ => false
  end.

Inductive OptionValue : Type :=
| ValueNone
| ValueInteger (n : Z)
| ValueString (s : string)
| ValueKeyValue (kv : list (string * string)).

(** Modelled from the spec: OptionsParser::Options (options.h is not part
    of the sources).  A validity flag and a mapping from option
    identifiers to values, with the presence queries [valid], [empty] and
    [isSet]. *)
Record Options : Type := mkOptions {
  valid_ : bool;
  values_ : list (Opt * OptionValue)
}.

Definition valid (o : Options) : bool := valid_ o.

Definition empty (o : Options) : bool :=
  match values_ o with
  | [] => true
  | _ :: _ => false
  end.

Definition isSet (o : Options) (opt : Opt) : bool :=
  existsb (fun kv => Opt_eqb (fst kv) opt) (values_ o).

(** ** Cameras and their properties (libcamera/property_ids.h) *)

Inductive LocationEnum : Type :=
| CameraLocationFront | CameraLocationBack | CameraLocationExternal.

(** The two entries of the property list that [cameraName] reads;
    [None] is [!props.contains(...)]. *)
Record ControlList : Type := mkProps {
  Location : option LocationEnum;
  Model : option string
}.

Record Camera : Type := mkCamera {
  id : string;
  properties : ControlList
}.

Record CameraSession : Type := mkSession {
  camera : Camera
}.

(** ** The application object *)

(** Modelled from the spec: EventLoop (event_loop.h is not part of the
    sources).  An exit code, a requested-exit flag and whether an
    [exec()] is currently blocked. *)
Record EventLoop : Type := mkLoop {
  exitCode_ : Z;
  exit_pending : bool;
  running : bool
}.

Record CamApp : Type := mkCamApp {
  options_ : Options;
  cm_ : bool;                (* unique_ptr<CameraManager>: non-null? *)
  loopUsers_ : Z;            (* std::atomic_uint *)
  loop_ : EventLoop
}.

(** ** What the process does to the outside, in order *)

Inductive Effect : Type :=
| Cout (line : string)               (* std::cout << ... << std::endl *)
| ParserUsage                        (* parser.usage() *)
| CmStart | CmStop                   (* cm_->start(), cm_->stop() *)
| SessionNew                         (* make_unique<CameraSession>(...) *)
| SessionListControls
| SessionListProperties
| SessionInfoConfiguration
| SessionStart (ret : Z)             (* session->start(options_), its result *)
| SessionStop                        (* session->stop() *)
| Sigaction                          (* sigaction(SIGINT, &sa, nullptr) *)
| LoopExec                           (* loop_.exec() *)
| LoopExit (code : Z).               (* EventLoop::exit(code) *)

(** Notifications that reach the process while the loop is blocked. *)
Inductive Event : Type :=
| EvCaptureDone                      (* session->captureDone emitted *)
| EvCameraAdded (cam : Camera)       (* cm_->cameraAdded emitted *)
| EvCameraRemoved (cam : Camera)     (* cm_->cameraRemoved emitted *)
| EvSigint.                          (* SIGINT delivered *)

(** The answers of the collaborators. *)
Record Env : Type := mkEnv {
  parse : list string -> Options;    (* OptionsParser::parse(argc, argv) *)
  cm_start : Z;                      (* CameraManager::start() *)
  cm_cameras : list Camera;          (* CameraManager::cameras() *)
  session_isValid : bool;            (* CameraSession::isValid() *)
  session_camera : Camera;           (* CameraSession::camera() *)
  session_start : Z;                 (* CameraSession::start() *)
  strerror : Z -> string;
  loopUsers_initial : Z;             (* loopUsers_ has no initialiser *)
  sigint_before_loop : bool;         (* SIGINT between sigaction and the loop *)
  loop_latches_exit : bool           (* exit() with no exec() blocked is kept *)
}.

(** Process state: the CamApp objects by address, the static pointers,
    the connected slots, the effects so far and the notifications still
    to come. *)
Record World : Type := mkWorld {
  heap : list CamApp;
  app_ : option nat;                 (* CamApp::app_ *)
  loop_instance_ : option nat;       (* EventLoop::instance(), by its owner *)
  captureDone_slot : option nat;     (* receiver of session->captureDone *)
  hotplug_slot : option nat;         (* receiver of cm_->cameraAdded/Removed *)
  out : list Effect;
  inbox : list Event
}.

Definition set_heap (h : list CamApp) (w : World) : World :=
  mkWorld h (app_ w) (loop_instance_ w) (captureDone_slot w) (hotplug_slot w)
          (out w) (inbox w).
Definition set_app_ (p : option nat) (w : World) : World :=
  mkWorld (heap w) p (loop_instance_ w) (captureDone_slot w) (hotplug_slot w)
          (out w) (inbox w).
Definition set_loop_instance_ (p : option nat) (w : World) : World :=
  mkWorld (heap w) (app_ w) p (captureDone_slot w) (hotplug_slot w)
          (out w) (inbox w).
Definition set_captureDone_slot (p : option nat) (w : World) : World :=
  mkWorld (heap w) (app_ w) (loop_instance_ w) p (hotplug_slot w)
          (out w) (inbox w).
Definition set_hotplug_slot (p : option nat) (w : World) : World :=
  mkWorld (heap w) (app_ w) (loop_instance_ w) (captureDone_slot w) p
          (out w) (inbox w).
Definition set_out (o : list Effect) (w : World) : World :=
  mkWorld (heap w) (app_ w) (loop_instance_ w) (captureDone_slot w)
          (hotplug_slot w) o (inbox w).
Definition set_inbox (i : list Event) (w : World) : World :=
  mkWorld (heap w) (app_ w) (loop_instance_ w) (captureDone_slot w)
          (hotplug_slot w) (out w) i.

(** ** Control: a state monad with early [return], a blocked loop and
    a null or dangling dereference. *)

Inductive Res (A : Type) : Type :=
| Val (a : A)        (* falls through to the next statement *)
| Ret (r : Z)        (* [return r;] *)
| Hang               (* blocked in the loop for ever *)
| Fault.             (* dereference of a pointer to no object *)
Arguments Val {A} a.
Arguments Ret {A} r.
Arguments Hang {A}.
Arguments Fault {A}.

Definition M (A : Type) : Type := World -> Res A * World.

Definition ret {A} (a : A) : M A := fun w => (Val a, w).
Definition return_ {A} (r : Z) : M A := fun w => (Ret r, w).
Definition hang {A} : M A := fun w => (Hang, w).
Definition fault {A} : M A := fun w => (Fault, w).

Definition bind {A B} (m : M A) (k : A -> M B) : M B :=
  fun w =>
    match m w with
    | (Val a, w') => k a w'
    | (Ret r, w') => (Ret r, w')
    | (Hang, w') => (Hang, w')
    | (Fault, w') => (Fault, w')
    end.

Declare Scope cam_scope.
Delimit Scope cam_scope with cam.
Notation "x <- m ;; k" := (bind m (fun x => k))
  (at level 100, m at next level, k at level 200, right associativity)
  : cam_scope.
Notation "m ;; k" := (bind m (fun _ => k))
  (at level 100, k at level 200, right associativity) : cam_scope.
Local Open Scope cam_scope.

(** The value of a call expression: the callee's [return r] is the value. *)
Definition call (m : M Z) : M Z :=
  fun w =>
    match m w with
    | (Val r, w') => (Val r, w')
    | (Ret r, w') => (Val r, w')
    | (Hang, w') => (Hang, w')
    | (Fault, w') => (Fault, w')
    end.

Definition when (b : bool) (m : M unit) : M unit :=
  if b then m else ret tt.

Definition emit (e : Effect) : M unit :=
  fun w => (Val tt, set_out (out w ++ [e]) w).

(** [*this] *)
Definition deref (this : nat) : M CamApp :=
  fun w =>
    match heap w !! this with
    | Some a => (Val a, w)
    | None => (Fault, w)
    end.

Definition modify (this : nat) (f : CamApp -> CamApp) : M unit :=
  a <- deref this ;;
  fun w => (Val tt, set_heap (<[this := f a]> (heap w)) w).

Definition set_options_ (o : Options) (a : CamApp) : CamApp :=
  mkCamApp o (cm_ a) (loopUsers_ a) (loop_ a).
Definition set_cm_ (c : bool) (a : CamApp) : CamApp :=
  mkCamApp (options_ a) c (loopUsers_ a) (loop_ a).
Definition set_loopUsers_ (u : Z) (a : CamApp) : CamApp :=
  mkCamApp (options_ a) (cm_ a) u (loop_ a).
Definition set_loop_ (l : EventLoop) (a : CamApp) : CamApp :=
  mkCamApp (options_ a) (cm_ a) (loopUsers_ a) l.

(** A member call through a pointer: [p->method(...)]. *)
Definition via {A} (p : option nat) (method : nat -> M A) : M A :=
  match p with
  | Some this => method this
  | None => fault
  end.

(** [if (p)] on a pointer. *)
Definition non_null {A} (p : option A) : bool :=
  match p with
  | Some _ => true
  | None => false
  end.

Definition get_inbox : M (list Event) := fun w => (Val (inbox w), w).
Definition put_inbox (evs : list Event) : M unit :=
  fun w => (Val tt, set_inbox evs w).

(** ** The program *)

(** [CamApp::cameraName].  The location is one of the three values of
    the enumeration, as the [switch] without [default] has it. *)
Definition cameraName (cam : Camera) : string :=
  let props := properties cam in
  let '(addModel, name) :=
    match Location props with
    | Some CameraLocationFront => (false, "Internal front camera ")
    | Some CameraLocationBack => (false, "Internal back camera ")
    | Some CameraLocationExternal => (true, "External camera ")
    | None => (true, "")
    end%string in
  let name :=
    match addModel, Model props with
    | true, Some model => ("'" ++ model ++ "' ")%string
    | _, _ => name
    end in
  (name ++ "(" ++ id cam ++ ")")%string.

Section Program.

Variable E : Env.

(** Modelled from the spec: EventLoop::exit(code) (event_loop.cpp is not
    part of the sources).  A request to unblock the current [exec()] with
    the given code; with no [exec()] blocked the request is kept for the
    next one or dropped, as [loop_latches_exit] says. *)
Definition EventLoop_exit (code : Z) (l : EventLoop) : EventLoop :=
  if running l || loop_latches_exit E
  then mkLoop code true (running l)
  else l.

(** The loop [owner->loop_] receives [exit(code)]. *)
Definition loop_exit (owner : nat) (code : Z) : M unit :=
  emit (LoopExit code) ;;
  modify owner (fun a => set_loop_ (EventLoop_exit code (loop_ a)) a).

(** Modelled from the spec: EventLoop::instance() (event_loop.cpp is not
    part of the sources): the one loop of the process, published when it
    is constructed. *)
Definition EventLoop_instance : M (option nat) :=
  fun w => (Val (loop_instance_ w), w).

(** [CamApp::CamApp()]: the members are default-constructed, then
    [CamApp::app_ = this].  [loopUsers_] has no initialiser. *)
Definition CamApp_ctor : M nat :=
  fun w =>
    let this := length (heap w) in
    let obj := mkCamApp (mkOptions false []) false
                        (uint_wrap (loopUsers_initial E))
                        (mkLoop 0 false false) in
    (Val this,
     set_app_ (Some this)
       (set_loop_instance_ (Some this) (set_heap (heap w ++ [obj]) w))).

(** [CamApp::instance()] *)
Definition instance : M (option nat) :=
  fun w => (Val (app_ w), w).

Definition isSet_ (this : nat) (opt : Opt) : M bool :=
  a <- deref this ;; ret (isSet (options_ a) opt).

(** [CamApp::parseOptions] (the option table itself belongs to the parser) *)
Definition parseOptions (this : nat) (argv : list string) : M Z :=
  modify this (set_options_ (parse E argv)) ;;
  a <- deref this ;;
  when (negb (valid (options_ a))) (return_ (- EINVAL)) ;;
  when (empty (options_ a) || isSet (options_ a) OptHelp)
    (emit ParserUsage ;;
     return_ (if empty (options_ a) then - EINVAL else - EINTR)) ;;
  return_ 0.

(** [CamApp::init] *)
Definition init (this : nat) (argv : list string) : M Z :=
  r <- call (parseOptions this argv) ;;
  when (r <? 0) (return_ r) ;;
  modify this (set_cm_ true) ;;
  emit CmStart ;;
  let r := cm_start E in
  when (negb (r =? 0))
    (emit (Cout ("Failed to start camera manager: " ++ strerror E (- r))) ;;
     return_ r) ;;
  return_ 0.

(** [CamApp::cleanup] *)
Definition cleanup (this : nat) : M unit :=
  a <- deref this ;;
  if cm_ a then emit CmStop else fault.

(** [CamApp::quit] *)
Definition quit (this : nat) : M unit :=
  loop_exit this 0.

(** [CamApp::cameraAdded], [CamApp::cameraRemoved] *)
Definition cameraAdded (this : nat) (cam : Camera) : M unit :=
  emit (Cout ("Camera Added: " ++ id cam)).

Definition cameraRemoved (this : nat) (cam : Camera) : M unit :=
  emit (Cout ("Camera Removed: " ++ id cam)).

(** [CamApp::captureDone] *)
Definition captureDone (this : nat) : M unit :=
  a <- deref this ;;
  let u := uint_decr (loopUsers_ a) in
  modify this (set_loopUsers_ u) ;;
  when (u =? 0)
    (l <- EventLoop_instance ;; via l (fun owner => loop_exit owner 0)).

(** [signalHandler] *)
Definition signalHandler (signal : Z) : M unit :=
  emit (Cout "Exiting") ;;
  p <- instance ;;
  via p quit.

(** Modelled from the spec: delivery of a notification (libcamera's Signal
    class is not part of the sources).  A notification runs the slot
    connected to it, if any; SIGINT runs the installed handler. *)
Definition deliver (e : Event) : M unit :=
  match e with
  | EvCaptureDone =>
      fun w => match captureDone_slot w with
               | Some receiver => captureDone receiver w
               | None => (Val tt, w)
               end
  | EvCameraAdded cam =>
      fun w => match hotplug_slot w with
               | Some receiver => cameraAdded receiver cam w
               | None => (Val tt, w)
               end
  | EvCameraRemoved cam =>
      fun w => match hotplug_slot w with
               | Some receiver => cameraRemoved receiver cam w
               | None => (Val tt, w)
               end
  | EvSigint => signalHandler SIGINT
  end.

(** Modelled from the spec: the blocked EventLoop::exec() (event_loop.cpp
    is not part of the sources).  It processes pending notifications one by
    one until [exit(code)] has been requested; with nothing left to process
    and no exit requested it stays blocked. *)
Fixpoint dispatch (owner : nat) (evs : list Event) : M Z :=
  match evs with
  | [] => hang
  | e :: rest =>
      put_inbox rest ;;
      deliver e ;;
      a <- deref owner ;;
      if exit_pending (loop_ a)
      then
        modify owner (set_loop_ (mkLoop (exitCode_ (loop_ a)) false false)) ;;
        ret (exitCode_ (loop_ a))
      else dispatch owner rest
  end.

(** Modelled from the spec: EventLoop::exec().  An exit request kept from
    before the call ends it at once; otherwise the loop blocks and
    dispatches what arrives. *)
Definition EventLoop_exec (owner : nat) : M Z :=
  emit LoopExec ;;
  a <- deref owner ;;
  if exit_pending (loop_ a)
  then
    modify owner (set_loop_ (mkLoop (exitCode_ (loop_ a)) false false)) ;;
    ret (exitCode_ (loop_ a))
  else
    modify owner (set_loop_ (mkLoop (exitCode_ (loop_ a)) false true)) ;;
    evs <- get_inbox ;;
    dispatch owner evs.

(** [loopUsers_++] *)
Definition loopUsers_incr (this : nat) : M unit :=
  modify this (fun a => set_loopUsers_ (uint_incr (loopUsers_ a)) a).

(** ** [CamApp::run], step by step *)

(** 1. List all cameras. *)
Fixpoint list_cameras (index : Z) (cams : list Camera) : M unit :=
  match cams with
  | [] => ret tt
  | cam :: rest =>
      emit (Cout (show_uint index ++ ": " ++ cameraName cam)) ;;
      list_cameras (uint_incr index) rest
  end.

Definition run_list (this : nat) : M unit :=
  b <- isSet_ this OptList ;;
  when b
    (emit (Cout "Available cameras:") ;;
     list_cameras 1 (cm_cameras E)).

(** 2. Create the camera session. *)
Definition run_session (this : nat) : M (option CameraSession) :=
  b <- isSet_ this OptCamera ;;
  if b then
    emit SessionNew ;;
    when (negb (session_isValid E))
      (emit (Cout "Failed to create camera session") ;;
       return_ (- EINVAL)) ;;
    emit (Cout ("Using camera " ++ id (session_camera E))) ;;
    (fun w => (Val tt, set_captureDone_slot (Some this) w)) ;;
    ret (Some (mkSession (session_camera E)))
  else ret None.

(** 3. Print camera information. *)
Definition run_info (this : nat) (session : option CameraSession) : M unit :=
  lc <- isSet_ this OptListControls ;;
  lp <- isSet_ this OptListProperties ;;
  info <- isSet_ this OptInfo ;;
  when (lc || lp || info)
    (when (negb (non_null session))
       (emit (Cout "Cannot print camera information without a camera") ;;
        return_ (- EINVAL)) ;;
     when lc (emit SessionListControls) ;;
     when lp (emit SessionListProperties) ;;
     when info (emit SessionInfoConfiguration)).

(** 4. Start capture. *)
Definition run_capture (this : nat) (session : option CameraSession) : M unit :=
  b <- isSet_ this OptCapture ;;
  when b
    (when (negb (non_null session))
       (emit (Cout "Can't capture without a camera") ;;
        return_ (- ENODEV)) ;;
     let r := session_start E in
     emit (SessionStart r) ;;
     when (negb (r =? 0))
       (emit (Cout "Failed to start camera session") ;;
        return_ r) ;;
     loopUsers_incr this).

(** 5. Enable hotplug monitoring. *)
Definition run_monitor (this : nat) : M unit :=
  b <- isSet_ this OptMonitor ;;
  when b
    (emit (Cout "Monitoring new hotplug and unplug events") ;;
     emit (Cout "Press Ctrl-C to interrupt") ;;
     (fun w => (Val tt, set_hotplug_slot (Some this) w)) ;;
     loopUsers_incr this).

(** [if (loopUsers_) loop_.exec();] *)
Definition run_wait (this : nat) : M unit :=
  a <- deref this ;;
  when (negb (loopUsers_ a =? 0))
    (_ <- EventLoop_exec this ;; ret tt).

(** 6. Stop capture. *)
Definition run_stop (this : nat) (session : option CameraSession) : M unit :=
  b <- isSet_ this OptCapture ;;
  when b
    (if non_null session then emit SessionStop else fault).

(** Steps 1 to 5: everything before the wait point. *)
Definition run_plan (this : nat) : M (option CameraSession) :=
  run_list this ;;
  session <- run_session this ;;
  run_info this session ;;
  run_capture this session ;;
  run_monitor this ;;
  ret session.

(** [CamApp::run] *)
Definition run (this : nat) : M Z :=
  session <- run_plan this ;;
  run_wait this ;;
  run_stop this session ;;
  return_ 0.

(** [CamApp::exec] *)
Definition exec (this : nat) : M Z :=
  r <- call (run this) ;;
  cleanup this ;;
  return_ r.

(** [main]; a SIGINT that arrives once the handler is installed and
    before the loop blocks runs the handler at that point. *)
Definition main (argv : list string) : M Z :=
  app <- CamApp_ctor ;;
  r <- call (init app argv) ;;
  when (negb (r =? 0))
    (return_ (if r =? - EINTR then 0 else EXIT_FAILURE)) ;;
  emit Sigaction ;;
  when (sigint_before_loop E) (signalHandler SIGINT) ;;
  r <- call (exec app) ;;
  when (negb (r =? 0)) (return_ EXIT_FAILURE) ;;
  return_ 0.

End Program.

(** The process before [main]: no object, null static pointers, nothing
    connected, nothing printed; [evs] are the notifications to come. *)
Definition boot (evs : list Event) : World :=
  mkWorld [] None None None None [] evs.

(** The exit status of the process and its final state. *)
Definition run_process (E : Env) (argv : list string) (evs : list Event)
  : Res Z * World :=
  main E argv (boot evs).

Definition effects (E : Env) (argv : list string) (evs : list Event)
  : list Effect :=
  out (snd (run_process E argv evs)).

(** ** Vocabulary for the statements *)

(** [w] with the effects [t] appended. *)
Definition say (t : list Effect) (w : World) : World :=
  set_out (out w ++ t) w.

(** [w] with the object at [this] replaced by [a]. *)
Definition poke (this : nat) (a : CamApp) (w : World) : World :=
  set_heap (<[this := a]> (heap w)) w.

(** The lines step 1 prints for the cameras [cams], numbered from [index]. *)
Fixpoint list_lines (index : Z) (cams : list Camera) : list Effect :=
  match cams with
  | [] => []
  | cam :: rest =>
      Cout (show_uint index ++ ": " ++ cameraName cam)
        :: list_lines (uint_incr index) rest
  end.

Definition listing (E : Env) (o : Options) : list Effect :=
  if isSet o OptList
  then Cout "Available cameras:" :: list_lines 1 (cm_cameras E)
  else [].

Definition info_calls (o : Options) : list Effect :=
  (if isSet o OptListControls then [SessionListControls] else []) ++
  (if isSet o OptListProperties then [SessionListProperties] else []) ++
  (if isSet o OptInfo then [SessionInfoConfiguration] else []).

Definition wants_info (o : Options) : bool :=
  isSet o OptListControls || isSet o OptListProperties || isSet o OptInfo.

(** Effects that steps 1 to 5 can have, and effects that the handlers run
    by the loop can have. *)
Definition plan_effect (e : Effect) : bool :=
  match e with
  | Cout _ | SessionNew | SessionListControls | SessionListProperties
  | SessionInfoConfiguration | SessionStart _ => true
  | _ => false
  end.

Definition handler_effect (e : Effect) : bool :=
  match e with
  | Cout _ | LoopExit _ => true
  | _ => false
  end.

Definition is_LoopExec (e : Effect) : bool :=
  match e with LoopExec => true | _ => false end.
Definition is_SessionStop (e : Effect) : bool :=
  match e with SessionStop => true | _ => false end.
Definition is_SessionStart_ok (e : Effect) : bool :=
  match e with SessionStart r => r =? 0 | _ => false end.

(** How many effects of [t] satisfy [p]. *)
Fixpoint count (p : Effect -> bool) (t : list Effect) : nat :=
  match t with
  | [] => 0%nat
  | e :: rest => ((if p e then 1 else 0) + count p rest)%nat
  end.

(** The counter after steps 4 and 5, from its value [u] before them. *)
Definition planned_users (o : Options) (u : Z) : Z :=
  let u := if isSet o OptCapture then uint_incr u else u in
  if isSet o OptMonitor then uint_incr u else u.

(** The counter after the notifications [evs], when [connected] tells
    whether [captureDone] is connected to the session. *)
Fixpoint users_after (connected : bool) (u : Z) (evs : list Event) : Z :=
  match evs with
  | [] => u
  | EvCaptureDone :: rest =>
      users_after connected (if connected then uint_decr u else u) rest
  | _ :: rest => users_after connected u rest
  end.

(** Following the spec's words: the loop returns at the first notification
    that is either a completion taking the counter from 1 to 0 or an
    interrupt signal, whichever comes first.  [first_exit] is the position
    of that notification in [evs], if there is one. *)
Fixpoint first_exit (connected : bool) (u : Z) (evs : list Event)
  : option nat :=
  match evs with
  | [] => None
  | EvSigint :: _ => Some 0%nat
  | EvCaptureDone :: rest =>
      if connected
      then if u =? 1 then Some 0%nat
           else option_map S (first_exit connected (uint_decr u) rest)
      else option_map S (first_exit connected u rest)
  | _ :: rest => option_map S (first_exit connected u rest)
  end.

(** What one notification does to the object that owns the loop and is
    connected to the signals, and what it prints. *)
Definition event_object (E : Env) (connected : bool) (e : Event) (a : CamApp)
  : CamApp :=
  match e with
  | EvSigint => set_loop_ (EventLoop_exit E 0 (loop_ a)) a
  | EvCaptureDone =>
      if connected then
        let a1 := set_loopUsers_ (uint_decr (loopUsers_ a)) a in
        if uint_decr (loopUsers_ a) =? 0
        then set_loop_ (EventLoop_exit E 0 (loop_ a)) a1
        else a1
      else a
  | EvCameraAdded _ | EvCameraRemoved _ => a
  end.

Definition event_trace (connected hotplug : bool) (e : Event) (a : CamApp)
  : list Effect :=
  match e with
  | EvSigint => [Cout "Exiting"; LoopExit 0]
  | EvCaptureDone =>
      if connected && (uint_decr (loopUsers_ a) =? 0)
      then [LoopExit 0] else []
  | EvCameraAdded cam =>
      if hotplug then [Cout ("Camera Added: " ++ id cam)] else []
  | EvCameraRemoved cam =>
      if hotplug then [Cout ("Camera Removed: " ++ id cam)] else []
  end.

(** Whether one of the fatal conditions of steps 2 to 4 holds. *)
Definition plan_fails (E : Env) (o : Options) : bool :=
  if isSet o OptCamera
  then negb (session_isValid E) ||
       (isSet o OptCapture && negb (session_start E =? 0))
  else wants_info o || isSet o OptCapture.

(** What step 6 adds to the trace. *)
Definition stop_trace (o : Options) : list Effect :=
  if isSet o OptCapture then [SessionStop] else [].

(** A trace of steps 1 to 5 that fell through to the wait point. *)
Definition plan_trace_ok (o : Options) (tp : list Effect) : Prop :=
  forallb plan_effect tp = true /\
  count is_SessionStart_ok tp = (if isSet o OptCapture then 1 else 0)%nat.

(** The ways [run] can go, for options [o], a counter [u] on entry, a loop
    with or without a kept exit request ([pending]), the session signal
    connected or not after step 2, and the notifications [evs] to come:
    result, effects, final counter and notifications left. *)
Inductive outcome (fails : bool) (o : Options) (u : Z)
    (pending connected : bool) (evs : list Event)
  : Res Z -> list Effect -> Z -> list Event -> Prop :=
| run_aborted r t :
    fails = true ->
    r <> 0 ->
    forallb plan_effect t = true ->
    count is_SessionStart_ok t = 0%nat ->
    outcome fails o u pending connected evs (Ret r) t u evs
| run_idle tp :
    fails = false ->
    plan_trace_ok o tp ->
    planned_users o u = 0 ->
    outcome fails o u pending connected evs
            (Ret 0) (tp ++ stop_trace o) (planned_users o u) evs
| run_latched tp :
    fails = false ->
    plan_trace_ok o tp ->
    planned_users o u <> 0 ->
    pending = true ->
    outcome fails o u pending connected evs
            (Ret 0) (tp ++ LoopExec :: stop_trace o) (planned_users o u) evs
| run_served tp tl n :
    fails = false ->
    plan_trace_ok o tp ->
    planned_users o u <> 0 ->
    pending = false ->
    forallb handler_effect tl = true ->
    first_exit connected (planned_users o u) evs = Some n ->
    outcome fails o u pending connected evs
            (Ret 0) (tp ++ LoopExec :: tl ++ stop_trace o)
            (users_after connected (planned_users o u) (take (S n) evs))
            (drop (S n) evs)
| run_blocked tp tl rest :
    fails = false ->
    plan_trace_ok o tp ->
    planned_users o u <> 0 ->
    pending = false ->
    forallb handler_effect tl = true ->
    first_exit connected (planned_users o u) evs = None ->
    outcome fails o u pending connected evs
            Hang (tp ++ LoopExec :: tl)
            (users_after connected (planned_users o u) evs) rest.

(** What a SIGINT caught before the loop prints. *)
Definition early_trace (E : Env) : list Effect :=
  if sigint_before_loop E then [Cout "Exiting"; LoopExit 0] else [].

(** The ways the process can go: exit status (or blocked for ever) and
    effects, by the result of parsing, of starting the camera manager and
    of [run]. *)
Inductive process_outcome (E : Env) (argv : list string) (evs : list Event)
  : Res Z -> list Effect -> Prop :=
| proc_invalid :
    valid (parse E argv) = false ->
    process_outcome E argv evs (Ret EXIT_FAILURE) []
| proc_empty :
    valid (parse E argv) = true ->
    empty (parse E argv) = true ->
    process_outcome E argv evs (Ret EXIT_FAILURE) [ParserUsage]
| proc_help :
    valid (parse E argv) = true ->
    empty (parse E argv) = false ->
    isSet (parse E argv) OptHelp = true ->
    process_outcome E argv evs (Ret 0) [ParserUsage]
| proc_cm_failed :
    valid (parse E argv) = true ->
    empty (parse E argv) = false ->
    isSet (parse E argv) OptHelp = false ->
    cm_start E <> 0 ->
    process_outcome E argv evs
      (Ret (if cm_start E =? - EINTR then 0 else EXIT_FAILURE))
      [CmStart;
       Cout ("Failed to start camera manager: " ++ strerror E (- cm_start E))]
| proc_ran r tr u rest :
    valid (parse E argv) = true ->
    empty (parse E argv) = false ->
    isSet (parse E argv) OptHelp = false ->
    cm_start E = 0 ->
    outcome (plan_fails E (parse E argv)) (parse E argv)
            (uint_wrap (loopUsers_initial E))
            (sigint_before_loop E && loop_latches_exit E)
            (isSet (parse E argv) OptCamera) evs (Ret r) tr u rest ->
    process_outcome E argv evs
      (Ret (if r =? 0 then 0 else EXIT_FAILURE))
      (CmStart :: Sigaction :: early_trace E ++ tr ++ [CmStop])
| proc_blocked tr u rest :
    valid (parse E argv) = true ->
    empty (parse E argv) = false ->
    isSet (parse E argv) OptHelp = false ->
    cm_start E = 0 ->
    outcome (plan_fails E (parse E argv)) (parse E argv)
            (uint_wrap (loopUsers_initial E))
            (sigint_before_loop E && loop_latches_exit E)
            (isSet (parse E argv) OptCamera) evs Hang tr u rest ->
    process_outcome E argv evs
      Hang (CmStart :: Sigaction :: early_trace E ++ tr).

(** A sequence of start and complete events applied to the counter of
    [this]: a start is [loopUsers_++], a completion is [captureDone()]. *)
Inductive CounterEvent : Type := Started | Completed.

Fixpoint drive (E : Env) (this : nat) (evs : list CounterEvent) : M unit :=
  match evs with
  | [] => ret tt
  | Started :: rest => loopUsers_incr this ;; drive E this rest
  | Completed :: rest => captureDone E this ;; drive E this rest
  end.

(** The object [a] lives at [this] and is the one the static pointers
    name; no other object is connected to the session. *)
Definition ready (this : nat) (a : CamApp) (w : World) : Prop :=
  heap w !! this = Some a /\
  app_ w = Some this /\
  loop_instance_ w = Some this /\
  (captureDone_slot w = None \/ captureDone_slot w = Some this).

Definition connected_to (this : nat) (w : World) : bool :=
  bool_decide (captureDone_slot w = Some this).

(** Every counter in the heap is a value of [unsigned int]. *)
Definition counters_ok (w : World) : Prop :=
  forall p a, heap w !! p = Some a -> is_uint (loopUsers_ a).

(** The display text of a location. *)
Definition location_text (l : LocationEnum) : string :=
  match l with
  | CameraLocationFront => "Internal front camera "
  | CameraLocationBack => "Internal back camera "
  | CameraLocationExternal => "External camera "
  end.

(** [m] leaves the singleton pointer and the set of objects alone. *)
Definition stays {A} (m : M A) : Prop :=
  forall w,
    app_ (snd (m w)) = app_ w /\
    length (heap (snd (m w))) = length (heap w).

(** The states the process can be in, with the most recently constructed
    [CamApp] ([None] before the first construction): constructions, and
    in between any of the other functions of the program. *)
Inductive history (E : Env) : World -> option nat -> Prop :=
| hist_boot evs :
    history E (boot evs) None
| hist_ctor w last :
    history E w last ->
    history E (snd (CamApp_ctor E w)) (Some (length (heap w)))
| hist_init w last this argv :
    history E w last -> history E (snd (init E this argv w)) last
| hist_exec w last this :
    history E w last -> history E (snd (exec E this w)) last
| hist_quit w last this :
    history E w last -> history E (snd (quit E this w)) last
| hist_deliver w last e :
    history E w last -> history E (snd (deliver E e w)) last.

(** ** Sample inputs *)

Definition sensor_camera : Camera :=
  mkCamera "cam0" (mkProps None (Some "SensorA"%string)).
Definition back_camera : Camera :=
  mkCamera "cam1" (mkProps (Some CameraLocationBack) (Some "SensorB"%string)).
Definition usb_camera : Camera :=
  mkCamera "cam2"
           (mkProps (Some CameraLocationExternal) (Some "Webcam"%string)).

(** A valid option set with the given flags present. *)
Definition flags (l : list Opt) : Options :=
  mkOptions true (map (fun opt => (opt, ValueNone)) l).

(** Collaborators that succeed, two cameras, no early signal. *)
Definition sample_env (o : Options) : Env :=
  mkEnv (fun _ => o) 0 [sensor_camera; back_camera] true sensor_camera 0
        (fun _ => "error"%string) 0 false false.

(** The state [main] reaches before [app.exec()], with counter [u]. *)
Definition sample_app (o : Options) (u : Z) : CamApp :=
  mkCamApp o true u (mkLoop 0 false false).

Definition sample_world (o : Options) (u : Z) (evs : list Event) : World :=
  mkWorld [sample_app o u] (Some 0%nat) (Some 0%nat) None None [] evs.

(** An argument vector with [--help] and the empty one, as the parser
    reads them. *)
Definition parse_help (argv : list string) : Options :=
  match argv with
  | [] => flags []
  | _ :: _ => flags [OptHelp]
  end.

Definition help_env : Env :=
  mkEnv parse_help 0 [] true sensor_camera 0 (fun _ => "error"%string)
        0 false false.

(** [cm_->start()] fails with [-EINTR]. *)
Definition interrupted_env : Env :=
  mkEnv (fun _ => flags [OptList]) (- EINTR) [] true sensor_camera 0
        (fun _ => "Interrupted system call"%string) 0 false false.

(** Monitoring only, with the storage of the object holding all ones
    where the constructor leaves [loopUsers_] without a value. *)
Definition all_ones_env : Env :=
  mkEnv (fun _ => flags [OptMonitor]) 0 [] true sensor_camera 0
        (fun _ => "error"%string) 4294967295 false false.

(** A SIGINT arrives after the handler is installed and before [run]
    finds that capture was requested without a camera. *)
Definition early_sigint_env : Env :=
  mkEnv (fun _ => flags [OptCapture]) 0 [] true sensor_camera 0
        (fun _ => "error"%string) 0 true false.

(** Capture and monitoring together: the first completion leaves the
    counter at 1, the signal ends the loop. *)
Definition both_flags : Options := flags [OptCamera; OptCapture; OptMonitor].

Definition both_events : list Event :=
  [EvCaptureDone; EvCameraAdded usb_camera; EvSigint; EvCaptureDone].

(** ** Vocabulary for the process trace *)

Definition is_CmStart (e : Effect) : bool :=
  match e with CmStart => true | _ => false end.
Definition is_CmStop (e : Effect) : bool :=
  match e with CmStop => true | _ => false end.
Definition is_Sigaction (e : Effect) : bool :=
  match e with Sigaction => true | _ => false end.

(** [init] gets as far as [cm_->start()]: the options are valid, not
    empty and without [--help]. *)
Definition reaches_cm (E : Env) (argv : list string) : bool :=
  valid (parse E argv) && negb (empty (parse E argv)) &&
  negb (isSet (parse E argv) OptHelp).

(** [init] returns 0. *)
Definition init_ok (E : Env) (argv : list string) : bool :=
  reaches_cm E argv && (cm_start E =? 0).

(** The exit status of a process that terminates, from what the parser,
    the camera manager and the session answer. *)
Definition exit_status (E : Env) (argv : list string) : Z :=
  let o := parse E argv in
  if valid o && negb (empty o) &&
     (isSet o OptHelp || (cm_start E =? - EINTR) ||
      ((cm_start E =? 0) && negb (plan_fails E o)))
  then 0 else EXIT_FAILURE.

(** The session calls of steps 2 and 3 for a camera that was selected. *)
Definition session_trace (E : Env) (o : Options) : list Effect :=
  [SessionNew; Cout ("Using camera " ++ id (session_camera E))] ++
  info_calls o.

(** What steps 1 to 5 print and call when none of them fails, in the
    order of the steps. *)
Definition planned_trace (E : Env) (o : Options) : list Effect :=
  listing E o ++
  (if isSet o OptCamera then session_trace E o else []) ++
  (if isSet o OptCapture then [SessionStart 0] else []) ++
  (if isSet o OptMonitor
   then [Cout "Monitoring new hotplug and unplug events";
         Cout "Press Ctrl-C to interrupt"]
   else []).

(** Option sets for the samples: a listing with a selected camera, the
    same with the stream information, a capture with monitoring. *)
Definition list_flags : Options := flags [OptList; OptCamera].
Definition info_flags : Options := flags [OptList; OptCamera; OptInfo].

(** The session of the selected camera cannot be created. *)
Definition no_session_env (o : Options) : Env :=
  mkEnv (fun _ => o) 0 [sensor_camera; back_camera] false sensor_camera 0
        (fun _ => "error"%string) 0 false false.

(** [session->start()] fails with [-EBUSY]. *)
Definition busy_env (o : Options) : Env :=
  mkEnv (fun _ => o) 0 [sensor_camera; back_camera] true sensor_camera (-16)
        (fun _ => "error"%string) 0 false false.

Arguments isSet : simpl never.
Arguments uint_incr : simpl never.
Arguments uint_decr : simpl never.
Arguments show_uint : simpl never.
Arguments cameraName : simpl never.
Arguments String.append : simpl never.
Arguments emit : simpl never.

(** * Properties *)

(** ** Unsigned arithmetic *)

Lemma uint_wrap_is_uint z : is_uint (uint_wrap z).
Proof.
  unfold is_uint, uint_wrap, UINT_MAX, UINT_BITS.
  pose proof (Z.mod_pos_bound z (2 ^ 32) ltac:(lia)). lia.
Qed.

Lemma uint_incr_is_uint u : is_uint (uint_incr u).
Proof. apply uint_wrap_is_uint. Qed.

Lemma uint_decr_is_uint u : is_uint (uint_decr u).
Proof. apply uint_wrap_is_uint. Qed.

Lemma uint_decr_zero_iff u : is_uint u -> (uint_decr u = 0 <-> u = 1).
Proof.
  unfold is_uint, uint_decr, uint_wrap, UINT_MAX, UINT_BITS. intros Hu.
  split.
  - intros H. destruct (Z.eq_dec u 0) as [->|Hne].
    + vm_compute in H. discriminate.
    + rewrite Z.mod_small in H by lia. lia.
  - intros ->. reflexivity.
Qed.

Lemma uint_decr_eqb u : is_uint u -> (uint_decr u =? 0) = (u =? 1).
Proof.
  intros Hu. apply uint_decr_zero_iff in Hu.
  destruct (Z.eqb_spec (uint_decr u) 0), (Z.eqb_spec u 1); intuition.
Qed.

Lemma uint_incr_small u : 0 <= u < UINT_MAX -> uint_incr u = u + 1.
Proof.
  unfold uint_incr, uint_wrap, UINT_MAX, UINT_BITS. intros Hu.
  apply Z.mod_small. lia.
Qed.

(** ** Worlds *)

Lemma say_nil w : say [] w = w.
Proof. destruct w. unfold say, set_out. simpl. now rewrite app_nil_r. Qed.

Lemma say_say t1 t2 w : say t2 (say t1 w) = say (t1 ++ t2) w.
Proof. unfold say, set_out. simpl. now rewrite app_assoc. Qed.

Lemma heap_lookup_insert (h : list CamApp) (i : nat) (a b : CamApp) :
  h !! i = Some a -> <[i := b]> h !! i = Some b.
Proof.
  intros H. apply list_lookup_insert_eq. eapply lookup_lt_Some; eauto.
Qed.

Lemma poke_lookup this a b w :
  heap w !! this = Some a -> heap (poke this b w) !! this = Some b.
Proof. intros H. simpl. eapply heap_lookup_insert; eauto. Qed.

Lemma poke_poke this a b w : poke this b (poke this a w) = poke this b w.
Proof. unfold poke, set_heap. simpl. now rewrite list_insert_insert_eq. Qed.

Lemma say_poke t this a w : say t (poke this a w) = poke this a (say t w).
Proof. reflexivity. Qed.

Lemma poke_same this a w : heap w !! this = Some a -> poke this a w = w.
Proof.
  intros H. destruct w. unfold poke, set_heap. simpl in *.
  now rewrite list_insert_id.
Qed.

Lemma counters_ok_poke this b w :
  counters_ok w -> is_uint (loopUsers_ b) -> counters_ok (poke this b w).
Proof.
  intros Hw Hb p a. simpl. intros Hp.
  destruct (decide (this = p)) as [->|Hne].
  - destruct (heap w !! p) as [a0|] eqn:Hq.
    + rewrite (heap_lookup_insert _ _ _ _ Hq) in Hp. now inversion Hp; subst.
    + rewrite list_insert_ge in Hp by (now apply lookup_ge_None).
      congruence.
  - rewrite list_lookup_insert_ne in Hp by assumption. eauto.
Qed.

Lemma counters_ok_say t w : counters_ok w -> counters_ok (say t w).
Proof. exact (fun H => H). Qed.

Lemma counters_ok_captureDone_slot p w :
  counters_ok w -> counters_ok (set_captureDone_slot p w).
Proof. exact (fun H => H). Qed.

Lemma counters_ok_hotplug_slot p w :
  counters_ok w -> counters_ok (set_hotplug_slot p w).
Proof. exact (fun H => H). Qed.

Lemma counters_ok_inbox evs w : counters_ok w -> counters_ok (set_inbox evs w).
Proof. exact (fun H => H). Qed.

Ltac lookup H := simpl; repeat (eapply heap_lookup_insert); exact H.

Ltac counters :=
  repeat first [ assumption
               | apply counters_ok_say
               | apply counters_ok_captureDone_slot
               | apply counters_ok_hotplug_slot
               | apply counters_ok_inbox
               | apply counters_ok_poke
               | apply uint_incr_is_uint
               | apply uint_decr_is_uint ].

(** ** Traces *)

Lemma count_app p t1 t2 : count p (t1 ++ t2) = (count p t1 + count p t2)%nat.
Proof. induction t1 as [|e t1 IH]; simpl; [reflexivity|]. rewrite IH. lia. Qed.

Lemma count_zero p t :
  count p t = 0%nat <-> forallb (fun e => negb (p e)) t = true.
Proof.
  induction t as [|e t IH]; simpl; [tauto|].
  destruct (p e); simpl; [split; intros; [lia|discriminate]|exact IH].
Qed.

Lemma count_In p t : (0 < count p t)%nat <-> exists e, In e t /\ p e = true.
Proof.
  induction t as [|e t IH]; simpl.
  - split; [lia|]. intros (e & [] & _).
  - destruct (p e) eqn:He.
    + split; [intros _; exists e; auto|intros; lia].
    + rewrite Nat.add_0_l, IH. split.
      * intros (e' & Hin & Hp). exists e'. auto.
      * intros (e' & [->|Hin] & Hp); [congruence|]. exists e'. auto.
Qed.

Lemma list_lines_Cout p index cams :
  (forall s, p (Cout s) = true) -> forallb p (list_lines index cams) = true.
Proof.
  intros Hp. revert index.
  induction cams as [|cam rest IH]; intros index; simpl; [reflexivity|].
  now rewrite Hp, IH.
Qed.

Lemma listing_Cout p E o :
  (forall s, p (Cout s) = true) -> forallb p (listing E o) = true.
Proof.
  intros Hp. unfold listing. destruct (isSet o OptList); [|reflexivity].
  simpl. now rewrite Hp, list_lines_Cout.
Qed.

Lemma count_listing p E o :
  (forall s, p (Cout s) = false) -> count p (listing E o) = 0%nat.
Proof.
  intros Hp. apply count_zero. apply listing_Cout. intros s. now rewrite Hp.
Qed.

Lemma info_calls_plan o : forallb plan_effect (info_calls o) = true.
Proof.
  unfold info_calls.
  destruct (isSet o OptListControls), (isSet o OptListProperties),
    (isSet o OptInfo); reflexivity.
Qed.

Lemma count_info_calls p o :
  p SessionListControls = false -> p SessionListProperties = false ->
  p SessionInfoConfiguration = false ->
  count p (info_calls o) = 0%nat.
Proof.
  intros H1 H2 H3. unfold info_calls.
  destruct (isSet o OptListControls), (isSet o OptListProperties),
    (isSet o OptInfo); simpl; rewrite ?H1, ?H2, ?H3; reflexivity.
Qed.

(** ** The primitives *)

Lemma emit_eq e w : emit e w = (Val tt, say [e] w).
Proof. reflexivity. Qed.

Lemma deref_eq this a w : heap w !! this = Some a -> deref this w = (Val a, w).
Proof. intros H. unfold deref. now rewrite H. Qed.

Lemma modify_eq this a f w :
  heap w !! this = Some a -> modify this f w = (Val tt, poke this (f a) w).
Proof. intros H. unfold modify, bind. now rewrite (deref_eq _ _ _ H). Qed.

Lemma isSet__eq this a opt w :
  heap w !! this = Some a ->
  isSet_ this opt w = (Val (isSet (options_ a) opt), w).
Proof. intros H. unfold isSet_, bind. now rewrite (deref_eq _ _ _ H). Qed.

Lemma loopUsers_incr_eq this a w :
  heap w !! this = Some a ->
  loopUsers_incr this w =
  (Val tt, poke this (set_loopUsers_ (uint_incr (loopUsers_ a)) a) w).
Proof. intros H. unfold loopUsers_incr. now rewrite (modify_eq _ _ _ _ H). Qed.

Lemma list_cameras_eq cams : forall index w,
  list_cameras index cams w = (Val tt, say (list_lines index cams) w).
Proof.
  induction cams as [|cam rest IH]; intros index w; simpl.
  - now rewrite say_nil.
  - unfold bind. rewrite emit_eq, IH. now rewrite say_say.
Qed.

(** ** The steps of [run], one equation each *)

Ltac steps :=
  repeat (first [ rewrite emit_eq | rewrite say_say | rewrite say_nil
                | progress cbv beta iota zeta
                    delta [ret return_ hang fault negb orb andb app
                           non_null] ]).

Section Steps.

Variable E : Env.
Variable this : nat.

Lemma run_list_eq a w :
  heap w !! this = Some a ->
  run_list E this w = (Val tt, say (listing E (options_ a)) w).
Proof.
  intros H. unfold run_list, listing, bind, when.
  rewrite (isSet__eq _ _ _ _ H).
  destruct (isSet (options_ a) OptList).
  - rewrite emit_eq, list_cameras_eq. now rewrite say_say.
  - now rewrite say_nil.
Qed.

Lemma run_session_eq a w :
  heap w !! this = Some a ->
  run_session E this w =
  if isSet (options_ a) OptCamera then
    if session_isValid E then
      (Val (Some (mkSession (session_camera E))),
       set_captureDone_slot (Some this)
         (say [SessionNew; Cout ("Using camera " ++ id (session_camera E))] w))
    else
      (Ret (- EINVAL),
       say [SessionNew; Cout "Failed to create camera session"] w)
  else (Val None, w).
Proof.
  intros H. unfold run_session, bind, when.
  rewrite (isSet__eq _ _ _ _ H).
  destruct (isSet (options_ a) OptCamera); [|reflexivity].
  destruct (session_isValid E); steps; reflexivity.
Qed.

Lemma run_info_eq a session w :
  heap w !! this = Some a ->
  run_info this session w =
  if wants_info (options_ a) then
    match session with
    | Some _ => (Val tt, say (info_calls (options_ a)) w)
    | None =>
        (Ret (- EINVAL),
         say [Cout "Cannot print camera information without a camera"] w)
    end
  else (Val tt, w).
Proof.
  intros H. unfold run_info, wants_info, info_calls, bind, when.
  rewrite !(isSet__eq _ _ _ _ H).
  destruct session as [s|];
    destruct (isSet (options_ a) OptListControls),
             (isSet (options_ a) OptListProperties),
             (isSet (options_ a) OptInfo); steps; reflexivity.
Qed.

Lemma run_capture_eq a session w :
  heap w !! this = Some a ->
  run_capture E this session w =
  if isSet (options_ a) OptCapture then
    match session with
    | Some _ =>
        if session_start E =? 0 then
          (Val tt,
           poke this (set_loopUsers_ (uint_incr (loopUsers_ a)) a)
             (say [SessionStart (session_start E)] w))
        else
          (Ret (session_start E),
           say [SessionStart (session_start E);
                Cout "Failed to start camera session"] w)
    | None =>
        (Ret (- ENODEV), say [Cout "Can't capture without a camera"] w)
    end
  else (Val tt, w).
Proof.
  intros H. unfold run_capture, bind, when.
  rewrite (isSet__eq _ _ _ _ H).
  destruct (isSet (options_ a) OptCapture); [|reflexivity].
  destruct session as [s|]; steps; [|reflexivity].
  destruct (session_start E =? 0); steps.
  - now rewrite (loopUsers_incr_eq this a (say _ w) H).
  - reflexivity.
Qed.

Lemma run_monitor_eq a w :
  heap w !! this = Some a ->
  run_monitor this w =
  if isSet (options_ a) OptMonitor then
    (Val tt,
     poke this (set_loopUsers_ (uint_incr (loopUsers_ a)) a)
       (set_hotplug_slot (Some this)
          (say [Cout "Monitoring new hotplug and unplug events";
                Cout "Press Ctrl-C to interrupt"] w)))
  else (Val tt, w).
Proof.
  intros H. unfold run_monitor, bind, when.
  rewrite (isSet__eq _ _ _ _ H).
  destruct (isSet (options_ a) OptMonitor); [|reflexivity].
  steps.
  now rewrite (loopUsers_incr_eq this a
                 (set_hotplug_slot (Some this) (say _ w)) H).
Qed.

Lemma run_stop_eq a session w :
  heap w !! this = Some a ->
  run_stop this session w =
  if isSet (options_ a) OptCapture then
    match session with
    | Some _ => (Val tt, say [SessionStop] w)
    | None => (Fault, w)
    end
  else (Val tt, w).
Proof.
  intros H. unfold run_stop, bind, when.
  rewrite (isSet__eq _ _ _ _ H).
  destruct (isSet (options_ a) OptCapture); [|reflexivity].
  destruct session; steps; reflexivity.
Qed.

(** Everything the later proofs need to know about steps 1 to 5. *)
Lemma run_plan_inv a w res w1 :
  heap w !! this = Some a ->
  run_plan E this w = (res, w1) ->
  exists t a1,
    out w1 = out w ++ t /\ forallb plan_effect t = true /\
    heap w1 !! this = Some a1 /\
    options_ a1 = options_ a /\ cm_ a1 = cm_ a /\ loop_ a1 = loop_ a /\
    (counters_ok w -> counters_ok w1) /\
    app_ w1 = app_ w /\ loop_instance_ w1 = loop_instance_ w /\
    inbox w1 = inbox w /\
    match res with
    | Val session =>
        plan_fails E (options_ a) = false /\
        loopUsers_ a1 = planned_users (options_ a) (loopUsers_ a) /\
        non_null session = isSet (options_ a) OptCamera /\
        (isSet (options_ a) OptCapture = true -> non_null session = true) /\
        count is_SessionStart_ok t =
          (if isSet (options_ a) OptCapture then 1%nat else 0%nat) /\
        captureDone_slot w1 =
          (if isSet (options_ a) OptCamera then Some this
           else captureDone_slot w) /\
        hotplug_slot w1 =
          (if isSet (options_ a) OptMonitor then Some this
           else hotplug_slot w)
    | Ret r =>
        plan_fails E (options_ a) = true /\
        r <> 0 /\ loopUsers_ a1 = loopUsers_ a /\
        count is_SessionStart_ok t = 0%nat
    | Hang | Fault => False
    end.
Proof.
  intros H. unfold run_plan, bind, planned_users, plan_fails.
  rewrite (run_list_eq a w H).
  rewrite (run_session_eq a (say _ w) H).
  destruct (isSet (options_ a) OptCamera) eqn:Hcam;
    [destruct (session_isValid E) eqn:Hval|];
    cbv beta iota zeta;
    try (erewrite run_info_eq by exact H;
         destruct (wants_info (options_ a)) eqn:Hinfo;
         cbv beta iota zeta);
    try (erewrite run_capture_eq by exact H;
         destruct (isSet (options_ a) OptCapture) eqn:Hcap;
         try destruct (session_start E =? 0) eqn:Hstart;
         cbv beta iota zeta);
    try (erewrite run_monitor_eq
           by first [exact H | eapply poke_lookup; exact H];
         cbn [options_ loopUsers_ set_loopUsers_];
         destruct (isSet (options_ a) OptMonitor) eqn:Hmon;
         cbv beta iota zeta delta [ret]);
    intros Hrun; inversion Hrun; subst; clear Hrun.
  all: eexists _, _.
  all: split; [simpl; rewrite <- ?app_assoc; reflexivity|].
  all: split; [|split; [lookup H|]].
  all: try (rewrite ?forallb_app; simpl;
            rewrite ?info_calls_plan, ?listing_Cout by reflexivity;
            reflexivity).
  all: repeat (split; [reflexivity|]).
  all: split; [intros Hok; counters|].
  all: repeat (split; [reflexivity|]).
  all: rewrite ?count_app, ?count_listing, ?count_info_calls by reflexivity.
  all: simpl; rewrite ?Hstart, ?Hval.
  all: repeat split; try reflexivity; try (unfold EINVAL, ENODEV; lia).
Qed.

End Steps.

(** ** The handlers *)

Section Handlers.

Variable E : Env.
Variable this : nat.

Lemma loop_exit_eq a code w :
  heap w !! this = Some a ->
  loop_exit E this code w =
  (Val tt,
   poke this (set_loop_ (EventLoop_exit E code (loop_ a)) a)
     (say [LoopExit code] w)).
Proof.
  intros H. unfold loop_exit, bind. rewrite emit_eq.
  now rewrite (modify_eq this a _ (say _ w) H).
Qed.

Lemma signalHandler_eq a signal w :
  heap w !! this = Some a -> app_ w = Some this ->
  signalHandler E signal w =
  (Val tt,
   poke this (set_loop_ (EventLoop_exit E 0 (loop_ a)) a)
     (say [Cout "Exiting"; LoopExit 0] w)).
Proof.
  intros H Happ. unfold signalHandler, instance, quit, bind.
  rewrite emit_eq. simpl. rewrite Happ. simpl.
  rewrite (loop_exit_eq a 0 (say _ w) H). now rewrite say_say.
Qed.

Lemma captureDone_eq a w :
  heap w !! this = Some a -> loop_instance_ w = Some this ->
  captureDone E this w =
  (Val tt,
   poke this (event_object E true EvCaptureDone a)
     (say (event_trace true false EvCaptureDone a) w)).
Proof.
  intros H Hloop. unfold captureDone, EventLoop_instance, bind, when.
  rewrite (deref_eq _ _ _ H), (modify_eq _ _ _ _ H). simpl.
  destruct (uint_decr (loopUsers_ a) =? 0); simpl.
  - rewrite Hloop. simpl.
    erewrite loop_exit_eq by (eapply poke_lookup; exact H).
    now rewrite say_poke, poke_poke.
  - now rewrite say_nil.
Qed.

Lemma deliver_eq a e w :
  ready this a w ->
  deliver E e w =
  (Val tt,
   poke this (event_object E (connected_to this w) e a)
     (say (event_trace (connected_to this w) (non_null (hotplug_slot w)) e a)
        w)).
Proof.
  intros (H & Happ & Hloop & Hslot). unfold connected_to.
  destruct e as [|cam|cam|]; simpl.
  - destruct Hslot as [-> | ->].
    + rewrite bool_decide_eq_false_2 by discriminate. simpl.
      now rewrite say_nil, (poke_same _ _ _ H).
    + rewrite bool_decide_eq_true_2 by reflexivity.
      now rewrite (captureDone_eq a w H Hloop).
  - destruct (hotplug_slot w); simpl.
    + unfold cameraAdded. rewrite emit_eq.
      now rewrite (poke_same this a (say _ w) H).
    + now rewrite say_nil, (poke_same _ _ _ H).
  - destruct (hotplug_slot w); simpl.
    + unfold cameraRemoved. rewrite emit_eq.
      now rewrite (poke_same this a (say _ w) H).
    + now rewrite say_nil, (poke_same _ _ _ H).
  - apply (signalHandler_eq a SIGINT w H Happ).
Qed.
Lemma event_trace_handler c h e a :
  forallb handler_effect (event_trace c h e a) = true.
Proof.
  destruct e; simpl; try destruct h; try reflexivity;
    destruct (c && _); reflexivity.
Qed.

Lemma first_exit_cons c u e rest :
  first_exit c u (e :: rest) =
  match first_exit c u [e] with
  | Some _ => Some 0%nat
  | None => option_map S (first_exit c (users_after c u [e]) rest)
  end.
Proof.
  destruct e; simpl; try reflexivity.
  destruct c; [destruct (u =? 1)|]; reflexivity.
Qed.

Lemma users_after_cons c u e rest :
  users_after c u (e :: rest) = users_after c (users_after c u [e]) rest.
Proof. destruct e; reflexivity. Qed.

(** One notification, seen on the object: the counter moves as
    [users_after] says and an exit is pending afterwards exactly when
    [first_exit] stops here. *)
Lemma event_object_facts c e a :
  running (loop_ a) = true -> exit_pending (loop_ a) = false ->
  is_uint (loopUsers_ a) ->
  let a1 := event_object E c e a in
  options_ a1 = options_ a /\ cm_ a1 = cm_ a /\
  running (loop_ a1) = true /\
  is_uint (loopUsers_ a1) /\
  loopUsers_ a1 = users_after c (loopUsers_ a) [e] /\
  match first_exit c (loopUsers_ a) [e] with
  | Some _ => exit_pending (loop_ a1) = true /\ exitCode_ (loop_ a1) = 0
  | None => exit_pending (loop_ a1) = false
  end.
Proof.
  intros Hrun Hpend Hu. unfold EventLoop_exit.
  destruct e as [|cam|cam|]; simpl.
  - destruct c; simpl; [|auto 10].
    rewrite (uint_decr_eqb _ Hu).
    destruct (loopUsers_ a =? 1); simpl; unfold EventLoop_exit;
      rewrite ?Hrun; simpl; auto 10 using uint_decr_is_uint.
  - auto 10.
  - auto 10.
  - unfold EventLoop_exit. rewrite Hrun. simpl. auto 10.
Qed.

Lemma dispatch_inv evs : forall w a,
  ready this a w ->
  running (loop_ a) = true -> exit_pending (loop_ a) = false ->
  is_uint (loopUsers_ a) ->
  exists res w' a' t,
    dispatch E this evs w = (res, w') /\
    out w' = out w ++ t /\ forallb handler_effect t = true /\
    heap w' = <[this := a']> (heap w) /\
    options_ a' = options_ a /\ cm_ a' = cm_ a /\
    is_uint (loopUsers_ a') /\
    app_ w' = app_ w /\ loop_instance_ w' = loop_instance_ w /\
    captureDone_slot w' = captureDone_slot w /\
    hotplug_slot w' = hotplug_slot w /\
    match first_exit (connected_to this w) (loopUsers_ a) evs with
    | Some n =>
        res = Val 0 /\ inbox w' = drop (S n) evs /\
        loop_ a' = mkLoop 0 false false /\
        loopUsers_ a' =
          users_after (connected_to this w) (loopUsers_ a) (take (S n) evs)
    | None =>
        res = Hang /\
        loopUsers_ a' = users_after (connected_to this w) (loopUsers_ a) evs
    end.
Proof.
  induction evs as [|e rest IH]; intros w a Hr Hrun Hpend Hu.
  - exists Hang, w, a, []. simpl. rewrite app_nil_r.
    destruct Hr as (H & _). rewrite (list_insert_id _ _ _ H).
    unfold hang. auto 15.
  - pose proof Hr as (H & Happ & Hloop & Hslot).
    cbn [dispatch]. unfold bind, put_inbox.
    rewrite (deliver_eq a e (set_inbox rest w) Hr).
    set (c := connected_to this (set_inbox rest w)).
    set (h := non_null (hotplug_slot (set_inbox rest w))).
    destruct (event_object_facts c e a Hrun Hpend Hu)
      as (Ho & Hc & Hrun1 & Hu1 & Hus & Hex).
    set (a1 := event_object E c e a) in *.
    set (t1 := event_trace c h e a).
    assert (Ht1 : forallb handler_effect t1 = true)
      by apply event_trace_handler.
    rewrite (deref_eq this a1) by (eapply poke_lookup; exact H).
    rewrite first_exit_cons.
    change (connected_to this w) with c.
    destruct (first_exit c (loopUsers_ a) [e]) as [n0|].
    + destruct Hex as (Hex & Hcode). rewrite Hex.
      erewrite modify_eq by (eapply poke_lookup; exact H).
      rewrite poke_poke, Hcode.
      eexists _, _, (set_loop_ (mkLoop 0 false false) a1), t1.
      split; [reflexivity|].
      change (take 1 (e :: rest)) with [e]. rewrite <- Hus.
      change (drop 1 (e :: rest)) with rest.
      repeat split; try assumption; apply Hu1.
    + rewrite Hex.
      assert (Hr1 : ready this a1 (poke this a1 (say t1 (set_inbox rest w)))).
      { repeat split; auto. eapply (poke_lookup this a). exact H. }
      destruct (IH _ a1 Hr1 Hrun1 Hex Hu1)
        as (res & w' & a' & t & Hd & Hout & Hall & Hheap & Ho' & Hc' & Hu'
            & Happ' & Hloop' & Hcd' & Hhp' & Hres).
      exists res, w', a', (t1 ++ t). split; [exact Hd|].
      simpl in Hout, Hheap, Happ', Hloop', Hcd', Hhp'.
      rewrite list_insert_insert_eq in Hheap.
      rewrite Hout, app_assoc, forallb_app, Ht1, Hall.
      change (connected_to this (poke this a1 (say t1 (set_inbox rest w))))
        with c in Hres.
      rewrite Hus in Hres.
      repeat (split; [first [reflexivity | assumption | congruence]|]).
      destruct (first_exit c (users_after c (loopUsers_ a) [e]) rest)
        as [n|]; cbn [option_map].
      * destruct Hres as (Hres & Hin & Hl & Hafter).
        change (take (S (S n)) (e :: rest)) with (e :: take (S n) rest).
        change (drop (S (S n)) (e :: rest)) with (drop (S n) rest).
        rewrite (users_after_cons c (loopUsers_ a) e (take (S n) rest)).
        auto.
      * rewrite (users_after_cons c (loopUsers_ a) e rest). exact Hres.
Qed.

Lemma EventLoop_exec_inv a w :
  ready this a w -> is_uint (loopUsers_ a) ->
  exists res w' a' tl,
    EventLoop_exec E this w = (res, w') /\
    out w' = out w ++ LoopExec :: tl /\ forallb handler_effect tl = true /\
    heap w' = <[this := a']> (heap w) /\
    options_ a' = options_ a /\ cm_ a' = cm_ a /\
    is_uint (loopUsers_ a') /\
    app_ w' = app_ w /\ loop_instance_ w' = loop_instance_ w /\
    captureDone_slot w' = captureDone_slot w /\
    hotplug_slot w' = hotplug_slot w /\
    if exit_pending (loop_ a) then
      res = Val (exitCode_ (loop_ a)) /\ inbox w' = inbox w /\
      loopUsers_ a' = loopUsers_ a /\ tl = []
    else
      match first_exit (connected_to this w) (loopUsers_ a) (inbox w) with
      | Some n =>
          res = Val 0 /\ inbox w' = drop (S n) (inbox w) /\
          loopUsers_ a' =
            users_after (connected_to this w) (loopUsers_ a)
                        (take (S n) (inbox w))
      | None =>
          res = Hang /\
          loopUsers_ a' =
            users_after (connected_to this w) (loopUsers_ a) (inbox w)
      end.
Proof.
  intros Hr Hu. pose proof Hr as (H & Happ & Hloop & Hslot).
  unfold EventLoop_exec, bind. rewrite emit_eq.
  rewrite (deref_eq this a (say _ w) H).
  destruct (exit_pending (loop_ a)) eqn:Hpend.
  - rewrite (modify_eq this a _ (say _ w) H).
    eexists _, _, (set_loop_ _ a), []. split; [reflexivity|].
    simpl. auto 15.
  - rewrite (modify_eq this a _ (say _ w) H). unfold get_inbox.
    set (a2 := set_loop_ (mkLoop (exitCode_ (loop_ a)) false true) a).
    assert (Hr2 : ready this a2 (poke this a2 (say [LoopExec] w))).
    { repeat split; auto. eapply (poke_lookup this a). exact H. }
    destruct (dispatch_inv (inbox w) _ a2 Hr2 eq_refl eq_refl Hu)
      as (res & w' & a' & t & Hd & Hout & Hall & Hheap & Ho' & Hc' & Hu'
          & Happ' & Hloop' & Hcd' & Hhp' & Hres).
    exists res, w', a', t. split; [exact Hd|].
    simpl in Hout, Hheap, Happ', Hloop', Hcd', Hhp'.
    rewrite list_insert_insert_eq in Hheap.
    rewrite Hout, <- app_assoc.
    change (connected_to this (poke this a2 (say [LoopExec] w)))
      with (connected_to this w) in Hres.
    change (loopUsers_ a2) with (loopUsers_ a) in Hres.
    repeat (split; [first [reflexivity | assumption]|]).
    destruct (first_exit (connected_to this w) (loopUsers_ a) (inbox w));
      tauto.
Qed.

End Handlers.

(** ** [run] as a whole *)

Section Run.

Variable E : Env.
Variable this : nat.

Lemma planned_users_is_uint o u : is_uint u -> is_uint (planned_users o u).
Proof.
  intros Hu. unfold planned_users.
  destruct (isSet o OptCapture), (isSet o OptMonitor);
    auto using uint_incr_is_uint.
Qed.

Lemma counters_ok_insert this' a' w w' :
  heap w' = <[this' := a']> (heap w) -> is_uint (loopUsers_ a') ->
  counters_ok w -> counters_ok w'.
Proof.
  intros Hheap Hu Hok p b Hp. rewrite Hheap in Hp.
  apply (counters_ok_poke this' a' w Hok Hu p b). exact Hp.
Qed.

Lemma run_stop_ok a session w :
  heap w !! this = Some a ->
  (isSet (options_ a) OptCapture = true -> non_null session = true) ->
  run_stop this session w = (Val tt, say (stop_trace (options_ a)) w).
Proof.
  intros H Hnn. rewrite (run_stop_eq this a session w H). unfold stop_trace.
  destruct (isSet (options_ a) OptCapture).
  - specialize (Hnn eq_refl). destruct session; [reflexivity|discriminate].
  - now rewrite say_nil.
Qed.

Lemma run_inv a w :
  ready this a w -> is_uint (loopUsers_ a) ->
  exists res w' a' t,
    run E this w = (res, w') /\
    out w' = out w ++ t /\
    heap w' !! this = Some a' /\
    options_ a' = options_ a /\ cm_ a' = cm_ a /\
    (counters_ok w -> counters_ok w') /\
    app_ w' = app_ w /\ loop_instance_ w' = loop_instance_ w /\
    outcome (plan_fails E (options_ a)) (options_ a) (loopUsers_ a)
            (exit_pending (loop_ a))
            (isSet (options_ a) OptCamera || connected_to this w) (inbox w)
            res t (loopUsers_ a') (inbox w') /\
    match fst (run_plan E this w) with
    | Val _ => res = Ret 0 \/ res = Hang
    | Ret r => res = Ret r /\ r <> 0
    | Hang | Fault => False
    end.
Proof.
  intros Hr Hu. pose proof Hr as (H & Happ & Hloop & Hslot).
  unfold run, bind.
  destruct (run_plan E this w) as [res1 w1] eqn:Hplan.
  destruct (run_plan_inv E this a w res1 w1 H Hplan)
    as (tp & a1 & Hout1 & Hall1 & H1 & Ho1 & Hc1 & Hl1 & Hok1 & Happ1
        & Hloop1 & Hin1 & Hres1).
  destruct res1 as [session|r| |]; try contradiction.
  2:{ destruct Hres1 as (Hfails & Hr0 & Hu1 & Hcount).
      exists (Ret r), w1, a1, tp. rewrite Hu1, Hin1.
      repeat (split; [first [reflexivity | assumption | congruence]|]).
      split; [now constructor|]. cbn [fst]. auto. }
  destruct Hres1 as (Hfails & Hu1 & Hnn & Hcapnn & Hcount & Hcd1 & Hhp1).
  assert (Hplanok : plan_trace_ok (options_ a) tp) by (split; assumption).
  assert (Hr1 : ready this a1 w1).
  { repeat split; try congruence. rewrite Hcd1.
    destruct (isSet (options_ a) OptCamera); auto. }
  assert (Hu1' : is_uint (loopUsers_ a1))
    by (rewrite Hu1; now apply planned_users_is_uint).
  assert (Hconn : connected_to this w1 =
                  isSet (options_ a) OptCamera || connected_to this w).
  { unfold connected_to. rewrite Hcd1.
    destruct (isSet (options_ a) OptCamera); simpl; [|reflexivity].
    now apply bool_decide_eq_true_2. }
  unfold run_wait, bind, when. rewrite (deref_eq this a1 w1 H1).
  destruct (loopUsers_ a1 =? 0) eqn:Hzero; simpl.
  - (* the loop is skipped *)
    apply Z.eqb_eq in Hzero.
    rewrite (run_stop_ok a1 session w1 H1), Ho1 by (rewrite Ho1; exact Hcapnn).
    exists (Ret 0), (say (stop_trace (options_ a)) w1), a1,
      (tp ++ stop_trace (options_ a)).
    simpl. rewrite Hout1, <- app_assoc, Hin1, Hu1.
    repeat (split; [first [reflexivity | assumption | congruence]|]).
    split; [apply run_idle; congruence|]. cbn [fst]. auto.
  - (* the loop is entered *)
    apply Z.eqb_neq in Hzero.
    destruct (EventLoop_exec_inv E this a1 w1 Hr1 Hu1')
      as (res2 & w2 & a2 & tl & Hexec & Hout2 & Hall2 & Hheap2 & Ho2 & Hc2
          & Hu2 & Happ2 & Hloop2 & Hcd2 & Hhp2 & Hres2).
    rewrite Hexec.
    assert (H2 : heap w2 !! this = Some a2)
      by (rewrite Hheap2; eapply heap_lookup_insert; exact H1).
    assert (Hok2 : counters_ok w -> counters_ok w2)
      by (intros Hok; eapply counters_ok_insert; eauto).
    assert (Hstop : run_stop this session w2 =
                    (Val tt, say (stop_trace (options_ a)) w2)).
    { rewrite (run_stop_ok a2 session w2 H2), Ho2, Ho1; [reflexivity|].
      rewrite Ho2, Ho1. exact Hcapnn. }
    rewrite Hl1, Hconn, Hu1, ?Hin1 in Hres2. rewrite Hu1 in Hzero.
    destruct (exit_pending (loop_ a)) eqn:Hpend.
    + (* a kept exit request *)
      destruct Hres2 as (-> & Hin2 & Hu2' & ->).
      cbv beta iota zeta delta [ret]. rewrite Hstop.
      exists (Ret 0), (say (stop_trace (options_ a)) w2), a2,
        (tp ++ LoopExec :: stop_trace (options_ a)).
      simpl. rewrite Hout2, Hout1, <- !app_assoc, Hin2, ?Hin1, Hu2'.
      repeat (split; [first [reflexivity | assumption | congruence]|]).
      split; [now apply run_latched|]. cbn [fst]. auto.
    + revert Hres2.
      destruct (first_exit (isSet (options_ a) OptCamera || connected_to this w)
                  (planned_users (options_ a) (loopUsers_ a)) (inbox w))
        as [n|] eqn:Hfirst; intros Hres2.
      * (* the loop returns *)
        destruct Hres2 as (-> & Hin2 & Hu2').
        cbv beta iota zeta delta [ret]. rewrite Hstop.
        exists (Ret 0), (say (stop_trace (options_ a)) w2), a2,
          (tp ++ LoopExec :: tl ++ stop_trace (options_ a)).
        simpl. rewrite Hout2, Hout1, <- !app_assoc, Hin2, ?Hin1, Hu2'.
        repeat (split; [first [reflexivity | assumption | congruence]|]).
        split; [now apply run_served|]. cbn [fst]. auto.
      * (* the loop stays blocked *)
        destruct Hres2 as (-> & Hu2').
        exists Hang, w2, a2, (tp ++ LoopExec :: tl).
        rewrite Hout2, Hout1, <- !app_assoc, Hu2'.
        repeat (split; [first [reflexivity | assumption | congruence]|]).
        split; [now apply run_blocked|]. cbn [fst]. auto.
Qed.

(** ** Start-up and [main] *)

Lemma parseOptions_eq a argv w :
  heap w !! this = Some a ->
  parseOptions E this argv w =
  let o := parse E argv in
  let w1 := poke this (set_options_ o a) w in
  if negb (valid o) then (Ret (- EINVAL), w1)
  else if empty o || isSet o OptHelp
       then (Ret (if empty o then - EINVAL else - EINTR),
             say [ParserUsage] w1)
       else (Ret 0, w1).
Proof.
  intros H. unfold parseOptions, bind, when.
  rewrite (modify_eq this a _ w H).
  erewrite deref_eq by (eapply poke_lookup; exact H).
  cbn [options_ set_options_].
  destruct (valid (parse E argv)); [|reflexivity]. cbn [negb].
  destruct (empty (parse E argv) || isSet (parse E argv) OptHelp);
    steps; reflexivity.
Qed.

Lemma init_eq a argv w :
  heap w !! this = Some a ->
  init E this argv w =
  let o := parse E argv in
  let w1 := poke this (set_options_ o a) w in
  if negb (valid o) then (Ret (- EINVAL), w1)
  else if empty o || isSet o OptHelp
       then (Ret (if empty o then - EINVAL else - EINTR),
             say [ParserUsage] w1)
       else
         let w2 := poke this (set_cm_ true (set_options_ o a)) w in
         if cm_start E =? 0 then (Ret 0, say [CmStart] w2)
         else (Ret (cm_start E),
               say [CmStart;
                    Cout ("Failed to start camera manager: "
                          ++ strerror E (- cm_start E))] w2).
Proof.
  intros H. unfold init, bind, call, when.
  rewrite (parseOptions_eq a argv w H). cbv zeta.
  destruct (valid (parse E argv)); [|reflexivity]. cbn [negb].
  destruct (empty (parse E argv) || isSet (parse E argv) OptHelp) eqn:Hh.
  - destruct (empty (parse E argv)); reflexivity.
  - cbn [Z.ltb Z.compare]. cbv beta iota zeta delta [ret].
    erewrite modify_eq by (eapply poke_lookup; exact H).
    rewrite poke_poke, emit_eq.
    destruct (cm_start E =? 0); steps; reflexivity.
Qed.

Lemma cleanup_eq a w :
  heap w !! this = Some a -> cm_ a = true ->
  cleanup this w = (Val tt, say [CmStop] w).
Proof.
  intros H Hcm. unfold cleanup, bind.
  now rewrite (deref_eq this a w H), Hcm, emit_eq.
Qed.

End Run.

Section Main.

Variable E : Env.

Lemma outcome_result fails o u pending connected evs res t u' rest :
  outcome fails o u pending connected evs res t u' rest ->
  (exists r, res = Ret r) \/ res = Hang.
Proof. intros []; eauto. Qed.

Lemma exec_inv this a w :
  ready this a w -> is_uint (loopUsers_ a) -> cm_ a = true ->
  exists res w' t u rest,
    exec E this w = (res, w') /\
    outcome (plan_fails E (options_ a)) (options_ a) (loopUsers_ a)
            (exit_pending (loop_ a))
            (isSet (options_ a) OptCamera || connected_to this w) (inbox w)
            res t u rest /\
    out w' = out w ++ t ++ (match res with Hang => [] | _ => [CmStop] end) /\
    (counters_ok w -> counters_ok w').
Proof.
  intros Hr Hu Hcm.
  destruct (run_inv E this a w Hr Hu)
    as (res & w' & a' & t & Hrun & Hout & H' & Ho' & Hc' & Hok & Happ & Hloop
        & Hshape & _).
  unfold exec, bind, call. rewrite Hrun.
  destruct (outcome_result _ _ _ _ _ _ _ _ _ _ Hshape) as [(r & ->) | ->].
  - rewrite (cleanup_eq this a' w' H') by congruence.
    exists (Ret r), (say [CmStop] w'), t, (loopUsers_ a'), (inbox w').
    simpl. rewrite Hout, <- app_assoc. auto.
  - exists Hang, w', t, (loopUsers_ a'), (inbox w').
    rewrite Hout, app_nil_r. auto.
Qed.

(** The end of [main]: [app.exec()] and the mapping to an exit status. *)
Lemma main_tail this a w :
  ready this a w -> is_uint (loopUsers_ a) -> cm_ a = true ->
  exists rr w' t u rest,
    (r <- call (exec E this) ;;
     when (negb (r =? 0)) (return_ EXIT_FAILURE) ;;
     @return_ Z 0) w =
    (match rr with
     | Ret r => Ret (if r =? 0 then 0 else EXIT_FAILURE)
     | _ => @Hang Z
     end, w') /\
    outcome (plan_fails E (options_ a)) (options_ a) (loopUsers_ a)
            (exit_pending (loop_ a))
            (isSet (options_ a) OptCamera || connected_to this w) (inbox w)
            rr t u rest /\
    out w' = out w ++ t ++ (match rr with Hang => [] | _ => [CmStop] end).
Proof.
  intros Hr Hu Hcm.
  destruct (exec_inv this a w Hr Hu Hcm)
    as (res & w' & t & u & rest & Hexec & Hshape & Hout & _).
  exists res, w', t, u, rest. unfold bind, call. rewrite Hexec.
  destruct (outcome_result _ _ _ _ _ _ _ _ _ _ Hshape) as [(r & ->) | ->].
  - unfold when. destruct (r =? 0); auto.
  - auto.
Qed.

Lemma main_inv argv evs :
  process_outcome E argv evs
    (fst (run_process E argv evs)) (effects E argv evs).
Proof.
  unfold effects. destruct (run_process E argv evs) as [res w'] eqn:Hmain.
  cbn [fst snd]. revert Hmain.
  unfold run_process, main, bind, CamApp_ctor, boot, call.
  cbn [set_app_ set_loop_instance_ set_heap heap app_ loop_instance_
       captureDone_slot hotplug_slot out inbox length app].
  set (obj := mkCamApp _ _ _ _).
  set (w0 := set_app_ _ _).
  rewrite (init_eq E 0%nat obj argv w0 eq_refl). cbv zeta.
  destruct (valid (parse E argv)) eqn:Hvalid; cbn [negb].
  2:{ intros [= <- <-]. now apply proc_invalid. }
  destruct (empty (parse E argv)) eqn:Hempty; cbn [orb].
  { intros [= <- <-]. now apply proc_empty. }
  destruct (isSet (parse E argv) OptHelp) eqn:Hhelp.
  { intros [= <- <-]. now apply proc_help. }
  destruct (cm_start E =? 0) eqn:Hcm.
  2:{ unfold when. rewrite Hcm. cbn [negb]. intros [= <- <-].
      apply Z.eqb_neq in Hcm. now apply proc_cm_failed. }
  apply Z.eqb_eq in Hcm.
  set (a0 := set_cm_ true (set_options_ (parse E argv) obj)).
  unfold when at 1. cbn [Z.eqb negb]. cbv beta iota zeta delta [ret].
  rewrite emit_eq, say_say. cbv beta iota. cbn [app].
  assert (H0 : heap (poke 0 a0 w0) !! 0%nat = Some a0) by reflexivity.
  unfold when at 1.
  destruct (sigint_before_loop E) eqn:Hsig.
  - rewrite (signalHandler_eq E 0%nat a0 SIGINT
               (say [CmStart; Sigaction] (poke 0 a0 w0)) H0 eq_refl).
    rewrite say_say, say_poke, poke_poke. cbn [app].
    set (a1 := set_loop_ _ a0). set (w1 := poke _ _ _).
    assert (Hr1 : ready 0 a1 w1) by (repeat split; auto).
    destruct (main_tail 0%nat a1 w1 Hr1 (uint_wrap_is_uint _) eq_refl)
      as (rr & w2 & t & u & rest & Hmain & Hshape & Hout).
    cbv beta iota. unfold bind, call in Hmain. rewrite Hmain.
    intros [= <- <-]. rewrite Hout.
    replace (out w1) with (CmStart :: Sigaction :: early_trace E)
      by (unfold early_trace; now rewrite Hsig).
    assert (Hshape' :
      outcome (plan_fails E (parse E argv)) (parse E argv)
            (uint_wrap (loopUsers_initial E))
              (sigint_before_loop E && loop_latches_exit E)
              (isSet (parse E argv) OptCamera) evs rr t u rest).
    { rewrite Hsig. revert Hshape. subst a1 a0 obj w1 w0.
      unfold connected_to, EventLoop_exit. cbn.
      rewrite orb_false_r. destruct (loop_latches_exit E); exact (fun H => H). }
    destruct (outcome_result _ _ _ _ _ _ _ _ _ _ Hshape) as [(r & ->) | ->].
    + now apply (proc_ran E argv evs r t u rest).
    + rewrite app_nil_r.
      now apply (proc_blocked E argv evs t u rest).
  - cbv beta iota zeta delta [ret].
    set (w1 := say _ (poke _ _ _)).
    assert (Hr1 : ready 0 a0 w1) by (repeat split; auto).
    destruct (main_tail 0%nat a0 w1 Hr1 (uint_wrap_is_uint _) eq_refl)
      as (rr & w2 & t & u & rest & Hmain & Hshape & Hout).
    unfold bind, call in Hmain. rewrite Hmain.
    intros [= <- <-]. rewrite Hout.
    replace (out w1) with (CmStart :: Sigaction :: early_trace E)
      by (unfold early_trace; now rewrite Hsig).
    assert (Hshape' :
      outcome (plan_fails E (parse E argv)) (parse E argv)
            (uint_wrap (loopUsers_initial E))
              (sigint_before_loop E && loop_latches_exit E)
              (isSet (parse E argv) OptCamera) evs rr t u rest).
    { rewrite Hsig. revert Hshape. subst a0 obj w1 w0.
      unfold connected_to. cbn.
      rewrite orb_false_r. exact (fun H => H). }
    destruct (outcome_result _ _ _ _ _ _ _ _ _ _ Hshape) as [(r & ->) | ->].
    + now apply (proc_ran E argv evs r t u rest).
    + rewrite app_nil_r.
      now apply (proc_blocked E argv evs t u rest).
Qed.

End Main.

(** ** Facts about [first_exit] and [users_after] *)

Lemma users_after_disconnected u evs : users_after false u evs = u.
Proof.
  revert u. induction evs as [|e rest IH]; intros u; [reflexivity|].
  destruct e; simpl; apply IH.
Qed.

Lemma first_exit_sigint c u evs :
  In EvSigint evs -> first_exit c u evs <> None.
Proof.
  revert u. induction evs as [|e rest IH]; intros u Hin; [destruct Hin|].
  destruct Hin as [->|Hin]; [discriminate|].
  destruct e; simpl; try discriminate.
  - destruct c; [destruct (u =? 1); [discriminate|]|];
      (destruct (first_exit _ _ rest) eqn:Hf; [discriminate|]);
      exfalso; eapply IH; eauto.
  - destruct (first_exit c u rest) eqn:Hf; [discriminate|].
    exfalso; eapply IH; eauto.
  - destruct (first_exit c u rest) eqn:Hf; [discriminate|].
    exfalso; eapply IH; eauto.
Qed.

Lemma classic_sigint (evs : list Event) :
  In EvSigint evs \/ ~ In EvSigint evs.
Proof.
  induction evs as [|e rest [IH|IH]].
  - now right.
  - left. now right.
  - destruct e; try (right; intros [Hd|Hin]; [discriminate|tauto]).
    left. now left.
Qed.

Lemma first_exit_disconnected u evs :
  first_exit false u evs = None <-> ~ In EvSigint evs.
Proof.
  split.
  - intros Hnone Hin. now apply (first_exit_sigint false u evs).
  - induction evs as [|e rest IH]; intros Hnot; [reflexivity|].
    destruct e; simpl; try (rewrite IH; [reflexivity|]);
      try (intros Hin; apply Hnot; now right).
    exfalso. apply Hnot. now left.
Qed.

Lemma count_forallb p q t :
  (forall e, p e = true -> q e = false) ->
  forallb p t = true -> count q t = 0%nat.
Proof.
  intros Hpq. induction t as [|e t IH]; simpl; [reflexivity|].
  intros Hall. apply andb_prop in Hall as [He Ht].
  now rewrite (Hpq e He), IH.
Qed.

Lemma count_not_In p e t : count p t = 0%nat -> p e = true -> ~ In e t.
Proof.
  intros Hc He Hin.
  assert (0 < count p t)%nat by (apply count_In; eauto). lia.
Qed.

(** * The claims *)

Section Claims.

Variable E : Env.
Variable this : nat.

(** ** Completion with no matching start *)

(** C9. [captureDone] decrements the unsigned counter modulo 2^32 and
    requests loop exit exactly when the result of the decrement is 0.  A
    completion that arrives when the counter is already 0 therefore wraps
    it to 4294967295: nothing is printed or requested, the loop is left as
    it was, and the counter is not zero afterwards. *)
Theorem captureDone_wraps_at_zero (a : CamApp) (w : World) :
  heap w !! this = Some a ->
  loop_instance_ w = Some this ->
  exists w' a',
    captureDone E this w = (Val tt, w') /\
    heap w' !! this = Some a' /\
    loopUsers_ a' = (loopUsers_ a - 1) mod 2 ^ 32 /\
    0 <= loopUsers_ a' < 2 ^ 32 /\
    out w' =
      out w ++ (if loopUsers_ a' =? 0 then [LoopExit 0] else []) /\
    (loopUsers_ a' <> 0 -> loop_ a' = loop_ a) /\
    (loopUsers_ a = 0 ->
     loopUsers_ a' = 4294967295 /\ out w' = out w /\ loop_ a' = loop_ a).
Proof.
  intros H Hloop. rewrite (captureDone_eq E this a w H Hloop).
  eexists _, _. split; [reflexivity|].
  split; [eapply poke_lookup; exact H|].
  cbn [event_object event_trace andb].
  change (uint_decr (loopUsers_ a)) with ((loopUsers_ a - 1) mod 2 ^ 32).
  destruct ((loopUsers_ a - 1) mod 2 ^ 32 =? 0) eqn:Hz; cbn.
  - rewrite Hz. apply Z.eqb_eq in Hz.
    repeat split; try lia; try (intros; congruence).
    all: exfalso; rewrite H0 in Hz; vm_compute in Hz; discriminate.
  - rewrite Hz, app_nil_r.
    pose proof (Z.mod_pos_bound (loopUsers_ a - 1) (2 ^ 32) ltac:(lia)).
    repeat split; try lia; try reflexivity.
    rewrite H1. reflexivity.
Qed.

(** ** Hotplug notifications *)

(** The attach and detach handlers only print one line: the heap (so
    the counter and the loop) is as before and no exit is requested.  In a
    run that only monitors (no camera selected, no capture) and finds the
    counter at 0 on entry, the counter is 1 whenever the loop stops or
    stays blocked, whatever notifications arrive; the run returns 0 when
    an interrupt signal is among them and stays blocked for ever
    otherwise.  The premise on the counter is needed: the constructor
    leaves [loopUsers_] without a value. *)
Theorem hotplug_handlers_only_print (a : CamApp) (w : World) :
  ready this a w ->
  isSet (options_ a) OptMonitor = true ->
  isSet (options_ a) OptCamera = false ->
  isSet (options_ a) OptCapture = false ->
  wants_info (options_ a) = false ->
  loopUsers_ a = 0 ->
  exit_pending (loop_ a) = false ->
  captureDone_slot w = None ->
  (forall cam w0,
     cameraAdded this cam w0 =
       (Val tt, say [Cout ("Camera Added: " ++ id cam)] w0) /\
     cameraRemoved this cam w0 =
       (Val tt, say [Cout ("Camera Removed: " ++ id cam)] w0) /\
     heap (say [Cout ("Camera Added: " ++ id cam)] w0) = heap w0) /\
  exists res w' a' t,
    run E this w = (res, w') /\
    out w' = out w ++ t /\
    heap w' !! this = Some a' /\
    loopUsers_ a' = 1 /\
    (res = Ret 0 /\ In EvSigint (inbox w) \/
     res = Hang /\ ~ In EvSigint (inbox w)).
Proof.
  intros Hr Hmon Hcam Hcap Hinfo Hu Hpend Hslot.
  split; [intros cam w0; repeat split|].
  assert (Huint : is_uint (loopUsers_ a))
    by (rewrite Hu; unfold is_uint, UINT_MAX, UINT_BITS; lia).
  destruct (run_inv E this a w Hr Huint)
    as (res & w' & a' & t & Hrun & Hout & H' & _ & _ & _ & _ & _ & Hshape & _).
  exists res, w', a', t. repeat (split; [assumption|]).
  assert (Hconn : isSet (options_ a) OptCamera || connected_to this w = false).
  { unfold connected_to. rewrite Hcam, Hslot. reflexivity. }
  assert (Hplanned : planned_users (options_ a) (loopUsers_ a) = 1).
  { unfold planned_users. rewrite Hcap, Hmon, Hu. reflexivity. }
  assert (Hfails : plan_fails E (options_ a) = false).
  { unfold plan_fails. now rewrite Hcam, Hinfo, Hcap. }
  rewrite Hconn, Hfails, Hpend in Hshape.
  inversion Hshape; subst; rewrite ?Hplanned in *; try congruence; try lia.
  - (* the loop returned *)
    rewrite users_after_disconnected. split; [reflexivity|]. left.
    split; [reflexivity|].
    destruct (classic_sigint (inbox w)) as [Hin|Hnot]; [exact Hin|].
    apply (first_exit_disconnected 1) in Hnot. congruence.
  - (* the loop stays blocked *)
    rewrite users_after_disconnected. split; [reflexivity|]. right.
    split; [reflexivity|]. now apply (first_exit_disconnected 1).
Qed.

(** ** Help and empty input *)

Lemma isSet_not_empty o opt : isSet o opt = true -> empty o = false.
Proof.
  unfold isSet, empty. destruct (values_ o); [discriminate|reflexivity].
Qed.

(** C3. A help request and an empty argument list both print the usage
    text and nothing else; the first exits with status 0 and the second
    with a failure status. *)
Theorem help_and_empty_input (argv_help argv_none : list string)
    (evs : list Event) :
  valid (parse E argv_help) = true ->
  isSet (parse E argv_help) OptHelp = true ->
  valid (parse E argv_none) = true ->
  empty (parse E argv_none) = true ->
  effects E argv_help evs = [ParserUsage] /\
  effects E argv_none evs = [ParserUsage] /\
  fst (run_process E argv_help evs) = Ret 0 /\
  fst (run_process E argv_none evs) = Ret EXIT_FAILURE /\
  EXIT_FAILURE <> 0.
Proof.
  intros Hv Hh Hv' He'.
  pose proof (isSet_not_empty _ _ Hh) as He.
  pose proof (main_inv E argv_help evs) as Hhelp.
  pose proof (main_inv E argv_none evs) as Hnone.
  inversion Hhelp; try congruence.
  inversion Hnone; try congruence.
  repeat split; try reflexivity. discriminate.
Qed.

(** ** Failure to start the camera manager *)

(** When [cm_->start()] fails, [init] prints the failure and returns the
    error code, and [main] turns it into a failure status unless the code
    is [-EINTR], the value [parseOptions] uses for a help request. *)
Lemma camera_manager_failure_status (argv : list string) (evs : list Event) :
  valid (parse E argv) = true ->
  empty (parse E argv) = false ->
  isSet (parse E argv) OptHelp = false ->
  cm_start E <> 0 ->
  fst (run_process E argv evs) =
    Ret (if cm_start E =? - EINTR then 0 else EXIT_FAILURE) /\
  effects E argv evs =
    [CmStart;
     Cout ("Failed to start camera manager: " ++ strerror E (- cm_start E))].
Proof.
  intros Hv He Hh Hcm.
  pose proof (main_inv E argv evs) as Hm.
  inversion Hm; try congruence. split; reflexivity.
Qed.

(** The other fatal conditions: a parse error, no arguments, and (with
    the camera manager started) a session that cannot be created, an
    action that needs a camera without one, a session that fails to start.
    All of them give a failure status. *)
Lemma fatal_conditions_fail (argv : list string) (evs : list Event) :
  valid (parse E argv) = false \/
  empty (parse E argv) = true \/
  (isSet (parse E argv) OptHelp = false /\ cm_start E = 0 /\
   plan_fails E (parse E argv) = true) ->
  fst (run_process E argv evs) = Ret EXIT_FAILURE.
Proof.
  intros Hfatal. pose proof (main_inv E argv evs) as Hm.
  inversion Hm as [ | | | |r tr u rest Hv He Hh Hcm Hshape Hres Heff
                    |tr u rest Hv He Hh Hcm Hshape Hres Heff];
    try reflexivity.
  - destruct Hfatal as [?|[?|(? & _)]]; congruence.
  - destruct Hfatal as [?|[?|(_ & ? & _)]]; congruence.
  - destruct Hfatal as [?|[?|(_ & _ & Hfails)]]; try congruence.
    rewrite Hfails in Hshape. inversion Hshape; subst; try congruence.
    destruct (r =? 0) eqn:Hr0; [lia|reflexivity].
  - destruct Hfatal as [?|[?|(_ & _ & Hfails)]]; try congruence.
    rewrite Hfails in Hshape. inversion Hshape; subst; congruence.
Qed.

(** ** Listing the cameras *)

Lemma list_lines_length cams : forall index,
  length (list_lines index cams) = length cams.
Proof.
  induction cams as [|cam rest IH]; intros index; simpl; [reflexivity|].
  now rewrite IH.
Qed.

Lemma uint_wrap_incr z : uint_incr (uint_wrap z) = uint_wrap (z + 1).
Proof.
  unfold uint_incr, uint_wrap. now rewrite Zplus_mod_idemp_l.
Qed.

Lemma list_lines_lookup cams : forall z (i : nat) cam,
  cams !! i = Some cam ->
  list_lines (uint_wrap z) cams !! i =
  Some (Cout (show_uint (uint_wrap (z + Z.of_nat i))
              ++ ": " ++ cameraName cam)).
Proof.
  induction cams as [|c rest IH]; intros z i cam Hi; [discriminate|].
  destruct i as [|i].
  - simpl in *. inversion Hi; subst. now rewrite Z.add_0_r.
  - change (list_lines (uint_incr (uint_wrap z)) rest !! i =
            Some (Cout (show_uint (uint_wrap (z + Z.of_nat (S i)))
                        ++ ": " ++ cameraName cam))).
    rewrite uint_wrap_incr, (IH (z + 1) i cam Hi).
    replace (z + 1 + Z.of_nat i) with (z + Z.of_nat (S i)) by lia.
    reflexivity.
Qed.

(** C7, as the code has it.  With the list flag, step 1 prints a header
    and then one line per known camera, numbered from 1 (as an unsigned
    int), each with the derived name, and falls through to step 2.  The
    derived name always ends with the id in parentheses; before it comes
    the location text for an internal front or back camera, otherwise the
    quoted model when there is one, and the text [External camera] only
    for an external camera without model. *)
Theorem list_prints_derived_names (a : CamApp) (w : World) :
  heap w !! this = Some a ->
  isSet (options_ a) OptList = true ->
  run_list E this w =
    (Val tt,
     say (Cout "Available cameras:" :: list_lines 1 (cm_cameras E)) w) /\
  length (list_lines 1 (cm_cameras E)) = length (cm_cameras E) /\
  (forall (i : nat) cam,
     cm_cameras E !! i = Some cam ->
     list_lines 1 (cm_cameras E) !! i =
     Some (Cout (show_uint ((1 + Z.of_nat i) mod 2 ^ 32)
                 ++ ": " ++ cameraName cam))) /\
  (forall cam,
     cameraName cam =
     (match Location (properties cam), Model (properties cam) with
      | Some CameraLocationFront, _ => "Internal front camera "
      | Some CameraLocationBack, _ => "Internal back camera "
      | _, Some model => "'" ++ model ++ "' "
      | Some CameraLocationExternal, None => "External camera "
      | None, None => ""
      end ++ "(" ++ id cam ++ ")")%string) /\
  cameraName sensor_camera = "'SensorA' (cam0)"%string /\
  cameraName back_camera = "Internal back camera (cam1)"%string.
Proof.
  intros H Hlist. split.
  - rewrite (run_list_eq E this a w H). unfold listing. now rewrite Hlist.
  - split; [apply list_lines_length|]. split; [|split].
    + intros i cam Hi. apply (list_lines_lookup (cm_cameras E) 1 i cam Hi).
    + intros [cid [[[| |]|] [model|]]]; reflexivity.
    + split; reflexivity.
Qed.

(** ** Actions that need a camera *)

Lemma plan_effect_no_LoopExec t :
  forallb plan_effect t = true -> ~ In LoopExec t.
Proof.
  intros Hall. apply (count_not_In is_LoopExec); [|reflexivity].
  apply (count_forallb plan_effect); [|exact Hall].
  now intros [].
Qed.

(** C4, as the code has it.  Without a selected camera, a request for
    controls, properties or stream information makes [run] print the
    [no camera] message right after the listing of step 1 and return
    [-EINVAL]; a capture request does the same with its own message and
    [-ENODEV] when none of the three is requested with it (step 3 comes
    first).  Nothing else happens in either case: the counter, the loop
    and the connections are untouched, the loop is not entered, and the
    process exits with a failure status. *)
Theorem missing_camera_aborts (a : CamApp) (w : World)
    (argv : list string) (evs : list Event) :
  heap w !! this = Some a ->
  isSet (options_ a) OptCamera = false ->
  wants_info (options_ a) || isSet (options_ a) OptCapture = true ->
  options_ a = parse E argv ->
  valid (parse E argv) = true ->
  isSet (parse E argv) OptHelp = false ->
  cm_start E = 0 ->
  run E this w =
    (Ret (if wants_info (options_ a) then - EINVAL else - ENODEV),
     say (listing E (options_ a) ++
          [Cout (if wants_info (options_ a)
                 then "Cannot print camera information without a camera"
                 else "Can't capture without a camera")]) w) /\
  - EINVAL <> - ENODEV /\ - EINVAL <> 0 /\ - ENODEV <> 0 /\
  fst (run_process E argv evs) = Ret EXIT_FAILURE /\
  EXIT_FAILURE <> 0 /\
  ~ In LoopExec (effects E argv evs).
Proof.
  intros H Hcam Hneed Hopts Hvalid Hhelp Hcm.
  split; [|split; [discriminate|split; [discriminate|split; [discriminate|]]]].
  - unfold run, run_plan, bind.
    rewrite (run_list_eq E this a w H).
    rewrite (run_session_eq E this a (say _ w) H), Hcam.
    cbv beta iota zeta.
    rewrite (run_info_eq this a None (say _ w) H).
    destruct (wants_info (options_ a)); [now rewrite say_say|].
    cbv beta iota zeta.
    rewrite (run_capture_eq E this a None (say _ w) H).
    simpl in Hneed. rewrite Hneed. now rewrite say_say.
  - assert (Hfails : plan_fails E (parse E argv) = true).
    { unfold plan_fails. now rewrite <- Hopts, Hcam. }
    assert (Hempty : empty (parse E argv) = false).
    { rewrite <- Hopts. apply orb_prop in Hneed as [Hi|Hc].
      - unfold wants_info in Hi.
        apply orb_prop in Hi as [Hi|Hi]; [apply orb_prop in Hi as [Hi|Hi]|];
          eapply isSet_not_empty; eauto.
      - eapply isSet_not_empty; eauto. }
    pose proof (main_inv E argv evs) as Hm.
    inversion Hm as [ | | | |r tr u rest _ _ _ _ Hshape Hres Heff
                      |tr u rest _ _ _ _ Hshape Hres Heff]; try congruence;
      rewrite Hfails in Hshape.
    + inversion Hshape; subst; try congruence.
      split; [|split; [discriminate|]].
      * destruct (r =? 0) eqn:Hr0; [lia|reflexivity].
      * intros [Hd|[Hd|Hin]]; try discriminate.
        apply in_app_or in Hin as [Hin|Hin].
        { unfold early_trace in Hin.
          destruct (sigint_before_loop E); [|destruct Hin].
          destruct Hin as [Hd|[Hd|[]]]; discriminate. }
        apply in_app_or in Hin as [Hin|[Hd|[]]]; [|discriminate].
        now apply (plan_effect_no_LoopExec tr).
    + inversion Hshape; subst; congruence.
Qed.

(** ** Stopping the capture *)

Lemma plan_effect_no_stop t :
  forallb plan_effect t = true -> count is_SessionStop t = 0%nat.
Proof. apply count_forallb. now intros []. Qed.

Lemma handler_effect_no_stop t :
  forallb handler_effect t = true -> count is_SessionStop t = 0%nat.
Proof. apply count_forallb. now intros []. Qed.

Lemma started_in_trace o tp :
  plan_trace_ok o tp -> isSet o OptCapture = true -> In (SessionStart 0) tp.
Proof.
  intros (_ & Hcount) Hcap. rewrite Hcap in Hcount.
  assert (Hpos : (0 < count is_SessionStart_ok tp)%nat) by lia.
  apply count_In in Hpos as (e & Hin & He).
  destruct e; try discriminate. simpl in He.
  apply Z.eqb_eq in He. now subst.
Qed.

(** C6. When capture is started (a camera is selected, its session is
    valid and [start] returns 0), [run] either returns 0 having called
    [stop] exactly once, as the last thing it does, however the loop
    ended or even if it was skipped; or it never returns, which takes a
    loop that is blocked with no interrupt signal to come. *)
Theorem capture_stopped_exactly_once (a : CamApp) (w : World) :
  ready this a w ->
  is_uint (loopUsers_ a) ->
  isSet (options_ a) OptCamera = true ->
  isSet (options_ a) OptCapture = true ->
  session_isValid E = true ->
  session_start E = 0 ->
  exists res w' t,
    run E this w = (res, w') /\
    out w' = out w ++ t /\
    In (SessionStart 0) t /\
    (res = Ret 0 /\ count is_SessionStop t = 1%nat /\
     last t = Some SessionStop
     \/
     res = Hang /\ count is_SessionStop t = 0%nat /\
     ~ In EvSigint (inbox w)).
Proof.
  intros Hr Hu Hcam Hcap Hvalid Hstart.
  destruct (run_inv E this a w Hr Hu)
    as (res & w' & a' & t & Hrun & Hout & _ & _ & _ & _ & _ & _ & Hshape & _).
  exists res, w', t. do 2 (split; [assumption|]).
  assert (Hfails : plan_fails E (options_ a) = false).
  { unfold plan_fails. now rewrite Hcam, Hcap, Hvalid, Hstart. }
  assert (Hstop : stop_trace (options_ a) = [SessionStop])
    by (unfold stop_trace; now rewrite Hcap).
  rewrite Hfails in Hshape.
  inversion Hshape as [ |tp Hf Hp Hz|tp Hf Hp Hz Hpend
                       |tp tl n Hf Hp Hz Hpend Hall Hfirst
                       |tp tl rest Hf Hp Hz Hpend Hall Hfirst];
    subst; try congruence; rewrite ?Hstop.
  - split; [apply in_or_app; left; eapply started_in_trace; eauto|].
    left. split; [reflexivity|]. split; [|apply last_snoc].
    rewrite count_app, (plan_effect_no_stop tp) by apply Hp. reflexivity.
  - split; [apply in_or_app; left; eapply started_in_trace; eauto|].
    left. split; [reflexivity|]. split.
    + rewrite count_app, (plan_effect_no_stop tp) by apply Hp. reflexivity.
    + change (last (tp ++ [LoopExec] ++ [SessionStop]) = Some SessionStop).
      rewrite app_assoc. apply last_snoc.
  - split; [apply in_or_app; left; eapply started_in_trace; eauto|].
    left. split; [reflexivity|]. split.
    + rewrite count_app, (plan_effect_no_stop tp) by apply Hp.
      simpl. rewrite count_app, (handler_effect_no_stop tl Hall).
      reflexivity.
    + change (last (tp ++ (LoopExec :: tl) ++ [SessionStop])
              = Some SessionStop).
      rewrite app_assoc. apply last_snoc.
  - split; [apply in_or_app; left; eapply started_in_trace; eauto|].
    right. split; [reflexivity|]. split.
    + rewrite count_app, (plan_effect_no_stop tp) by apply Hp.
      simpl. now rewrite (handler_effect_no_stop tl Hall).
    + intros Hin. now apply first_exit_sigint in Hfirst.
Qed.

(** ** Interrupt signal and exit status *)

Lemma early_trace_no_LoopExec : ~ In LoopExec (early_trace E).
Proof.
  unfold early_trace. destruct (sigint_before_loop E); simpl; [|tauto].
  intros [Hd|[Hd|[]]]; discriminate.
Qed.

(** C2, as the code has it.  Every run of the process that enters the
    event loop exits with status 0 once the loop returns, whether a signal
    or the last completion ended it: [run] returns 0 after the loop and
    [main] maps that to 0.  The only other possibility is that the loop
    stays blocked for ever, and then no interrupt signal is among the
    notifications to come. *)
Theorem loop_runs_exit_zero (argv : list string) (evs : list Event) :
  In LoopExec (effects E argv evs) ->
  fst (run_process E argv evs) = Ret 0 \/
  fst (run_process E argv evs) = Hang /\ ~ In EvSigint evs.
Proof.
  intros Hloop. pose proof (main_inv E argv evs) as Hm.
  inversion Hm as [ | | | |r tr u rest _ _ _ _ Hshape Hres Heff
                    |tr u rest _ _ _ _ Hshape Hres Heff];
    try (rewrite <- Heff in Hloop);
    try match goal with
        | Heq : _ = effects E argv evs |- _ => rewrite <- Heq in Hloop
        end.
  - destruct Hloop.
  - destruct Hloop as [Hd|[]]; discriminate.
  - destruct Hloop as [Hd|[]]; discriminate.
  - destruct Hloop as [Hd|[Hd|[]]]; discriminate.
  - left. inversion Hshape; subst; try reflexivity.
    exfalso. destruct Hloop as [Hd|[Hd|Hin]]; try discriminate.
    apply in_app_or in Hin as [Hin|Hin];
      [now apply early_trace_no_LoopExec|].
    apply in_app_or in Hin as [Hin|[Hd|[]]]; [|discriminate].
    now apply (plan_effect_no_LoopExec tr).
  - right. split; [reflexivity|].
    inversion Hshape; subst. intros Hin.
    match goal with
    | Hf : first_exit _ _ _ = None |- _ =>
        now apply first_exit_sigint in Hf
    end.
Qed.

(** ** The counter and the loop *)

Lemma counters_ok_modify q f w :
  (forall x, is_uint (loopUsers_ x) -> is_uint (loopUsers_ (f x))) ->
  counters_ok w -> counters_ok (snd (modify q f w)).
Proof.
  intros Hf Hok. unfold modify, bind, deref.
  destruct (heap w !! q) as [x|] eqn:Hq; simpl; [|exact Hok].
  apply (counters_ok_poke q (f x) w Hok). apply Hf. eapply Hok; eauto.
Qed.

Lemma counters_ok_loopUsers_incr w :
  counters_ok w -> counters_ok (snd (loopUsers_incr this w)).
Proof.
  apply counters_ok_modify. intros x _. apply uint_incr_is_uint.
Qed.

Lemma counters_ok_captureDone w :
  counters_ok w -> counters_ok (snd (captureDone E this w)).
Proof.
  intros Hok. unfold captureDone, bind, deref, when, EventLoop_instance, via.
  destruct (heap w !! this) as [a|] eqn:H; simpl; [|exact Hok].
  rewrite (modify_eq this a _ w H).
  assert (Hok1 : counters_ok
                   (poke this (set_loopUsers_ (uint_decr (loopUsers_ a)) a) w))
    by (apply counters_ok_poke; [exact Hok|apply uint_decr_is_uint]).
  destruct (uint_decr (loopUsers_ a) =? 0); simpl; [|exact Hok1].
  destruct (loop_instance_ w) as [owner|]; simpl; [|exact Hok1].
  unfold loop_exit, bind. rewrite emit_eq.
  apply (counters_ok_modify owner _ (say [LoopExit 0] _)); [|exact Hok1].
  intros x Hx. exact Hx.
Qed.

Lemma counters_ok_drive evs : forall w,
  counters_ok w -> counters_ok (snd (drive E this evs w)).
Proof.
  induction evs as [|[|] rest IH]; intros w Hok; simpl; [exact Hok| |].
  - unfold bind.
    pose proof (counters_ok_loopUsers_incr w Hok) as Hok1.
    destruct (loopUsers_incr this w) as [[[]| | |] w1]; simpl in *; auto.
  - unfold bind.
    pose proof (counters_ok_captureDone w Hok) as Hok1.
    destruct (captureDone E this w) as [[[]| | |] w1]; simpl in *; auto.
Qed.

(** C1. The counter is an unsigned value, so it is never negative: not
    after any sequence of starts and completions, and not after [run].
    [run] enters the loop exactly when steps 1 to 5 fall through with a
    counter greater than zero.  Once entered (with no exit request kept
    from before), the loop returns at the first notification that is a
    completion taking the counter from 1 to 0 or an interrupt signal,
    whichever comes first, and stays blocked when there is none. *)
Theorem counter_drives_the_loop (a : CamApp) (w : World) :
  ready this a w ->
  is_uint (loopUsers_ a) ->
  counters_ok w ->
  (forall evs p b,
     heap (snd (drive E this evs w)) !! p = Some b -> 0 <= loopUsers_ b) /\
  exists res w' a' t,
    run E this w = (res, w') /\
    out w' = out w ++ t /\
    heap w' !! this = Some a' /\
    0 <= loopUsers_ a' /\
    counters_ok w' /\
    (forall r w1, run_plan E this w = (Ret r, w1) -> ~ In LoopExec t) /\
    (forall session w1 a1,
       run_plan E this w = (Val session, w1) ->
       heap w1 !! this = Some a1 ->
       (In LoopExec t <-> 0 < loopUsers_ a1) /\
       (In LoopExec t ->
        exit_pending (loop_ a1) = false ->
        match first_exit (connected_to this w1) (loopUsers_ a1) (inbox w1)
        with
        | Some n => res = Ret 0 /\ inbox w' = drop (S n) (inbox w1)
        | None => res = Hang
        end)).
Proof.
  intros Hr Hu Hok. pose proof Hr as (H & _ & _ & Hslot).
  split.
  { intros evs p b Hp. eapply (counters_ok_drive evs w Hok); eauto. }
  destruct (run_inv E this a w Hr Hu)
    as (res & w' & a' & t & Hrun & Hout & H' & _ & _ & Hok' & _ & _ & Hshape
        & Hlink).
  exists res, w', a', t. do 3 (split; [assumption|]).
  split; [eapply (Hok' Hok); eauto|]. split; [auto|].
  assert (Hplanned : is_uint (planned_users (options_ a) (loopUsers_ a)))
    by now apply planned_users_is_uint.
  assert (Hin : forall tp tl, In LoopExec (tp ++ LoopExec :: tl))
    by (intros; apply in_or_app; right; now left).
  assert (Hidle : forall tp,
             plan_trace_ok (options_ a) tp ->
             ~ In LoopExec (tp ++ stop_trace (options_ a))).
  { intros tp (Hp & _) Hi. apply in_app_or in Hi as [Hi|Hi].
    - now apply (plan_effect_no_LoopExec tp).
    - unfold stop_trace in Hi. destruct (isSet (options_ a) OptCapture);
        [destruct Hi as [Hd|[]]; discriminate|destruct Hi]. }
  split.
  - intros r w1 Hplan. rewrite Hplan in Hlink. cbn [fst] in Hlink.
    destruct Hlink as (-> & Hr0).
    inversion Hshape; subst; try congruence.
    now apply plan_effect_no_LoopExec.
  - intros session w1 a1 Hplan H1. rewrite Hplan in Hlink. cbn [fst] in Hlink.
    destruct (run_plan_inv E this a w _ _ H Hplan)
      as (tp & a1' & _ & _ & H1' & _ & _ & Hl1 & _ & _ & _ & Hin1 & _ & Hu1
          & _ & _ & _ & Hcd1 & _).
    assert (a1 = a1') by congruence. subst a1'.
    assert (Hconn : connected_to this w1 =
                    isSet (options_ a) OptCamera || connected_to this w).
    { unfold connected_to. rewrite Hcd1.
      destruct (isSet (options_ a) OptCamera); simpl; [|reflexivity].
      now apply bool_decide_eq_true_2. }
    rewrite Hu1, Hl1, Hin1, Hconn. unfold is_uint in Hplanned.
    split.
    + inversion Hshape; subst.
      * destruct Hlink; congruence.
      * split; [intros Hi; exfalso; eapply Hidle; eauto|lia].
      * split; [lia|auto].
      * split; [lia|auto].
      * split; [lia|auto].
    + intros Hloop Hpend. rewrite Hpend in Hshape.
      inversion Hshape as [r t0 Hf Hr0 Hall|tp0 Hf Hp Hz|tp0 Hf Hp Hz Hpend'
                           |tp0 tl n Hf Hp Hz Hpend' Hall Hfirst
                           |tp0 tl rest Hf Hp Hz Hpend' Hall Hfirst]; subst.
      * exfalso. now apply (plan_effect_no_LoopExec t).
      * exfalso. eapply Hidle; eauto.
      * discriminate.
      * rewrite Hfirst. auto.
      * rewrite Hfirst. reflexivity.
Qed.

(** ** The singleton *)

Lemma stays_ret A (a : A) : stays (ret a).
Proof. intros w. split; reflexivity. Qed.

Lemma stays_return_ A r : stays (@return_ A r).
Proof. intros w. split; reflexivity. Qed.

Lemma stays_hang A : stays (@hang A).
Proof. intros w. split; reflexivity. Qed.

Lemma stays_fault A : stays (@fault A).
Proof. intros w. split; reflexivity. Qed.

Lemma stays_emit e : stays (emit e).
Proof. intros w. split; reflexivity. Qed.

Lemma stays_bind A B (m : M A) (k : A -> M B) :
  stays m -> (forall a, stays (k a)) -> stays (bind m k).
Proof.
  intros Hm Hk w. unfold bind. specialize (Hm w).
  destruct (m w) as [[x|r| |] w1]; simpl in *; try exact Hm.
  destruct (Hk x w1) as (Happ & Hlen). split; [rewrite Happ|rewrite Hlen];
    apply Hm.
Qed.

Lemma stays_call m : stays m -> stays (call m).
Proof.
  intros Hm w. unfold call. specialize (Hm w).
  destruct (m w) as [[x|r| |] w1]; exact Hm.
Qed.

Lemma stays_when b m : stays m -> stays (when b m).
Proof. intros Hm. destruct b; [exact Hm|apply stays_ret]. Qed.

Lemma stays_via A p (method : nat -> M A) :
  (forall q, stays (method q)) -> stays (via p method).
Proof. intros Hm. destruct p; [apply Hm|apply stays_fault]. Qed.

Lemma stays_deref q : stays (deref q).
Proof. intros w. unfold deref. destruct (heap w !! q); split; reflexivity. Qed.

Lemma stays_modify q f : stays (modify q f).
Proof.
  intros w. unfold modify, bind, deref.
  destruct (heap w !! q); simpl; [|split; reflexivity].
  split; [reflexivity|apply length_insert].
Qed.

Lemma stays_isSet_ q opt : stays (isSet_ q opt).
Proof. apply stays_bind; [apply stays_deref|intros; apply stays_ret]. Qed.

Ltac stays_tac :=
  repeat first
    [ apply stays_ret | apply stays_return_ | apply stays_hang
    | apply stays_fault | apply stays_emit | apply stays_deref
    | apply stays_modify | apply stays_isSet_
    | apply stays_call | apply stays_when | apply stays_via; intros ?
    | apply stays_bind; [|intros ?]
    | match goal with
      | |- stays (if ?b then _ else _) => destruct b
      | |- stays (fun w => (Val _, _ w)) => intros ?; split; reflexivity
      | |- stays (fun w => (Val (_ w), w)) => intros ?; split; reflexivity
      end ].

Lemma stays_loop_exit owner code : stays (loop_exit E owner code).
Proof. unfold loop_exit. stays_tac. Qed.

Lemma stays_quit q : stays (quit E q).
Proof. apply stays_loop_exit. Qed.

Lemma stays_captureDone q : stays (captureDone E q).
Proof.
  unfold captureDone, EventLoop_instance. stays_tac.
Qed.

Lemma stays_signalHandler signal : stays (signalHandler E signal).
Proof. unfold signalHandler, instance. stays_tac. Qed.

Lemma stays_deliver e : stays (deliver E e).
Proof.
  destruct e as [|cam|cam|]; simpl.
  - intros w. destruct (captureDone_slot w);
      [apply stays_captureDone|split; reflexivity].
  - intros w. destruct (hotplug_slot w); split; reflexivity.
  - intros w. destruct (hotplug_slot w); split; reflexivity.
  - apply stays_signalHandler.
Qed.

Lemma stays_dispatch owner evs : stays (dispatch E owner evs).
Proof.
  induction evs as [|e rest IH]; simpl; [apply stays_hang|].
  unfold put_inbox. stays_tac; try apply stays_deliver; try exact IH.
Qed.

Lemma stays_EventLoop_exec owner : stays (EventLoop_exec E owner).
Proof.
  unfold EventLoop_exec, get_inbox. stays_tac; try apply stays_dispatch.
Qed.

Lemma stays_list_cameras cams : forall index, stays (list_cameras index cams).
Proof.
  induction cams as [|cam rest IH]; intros index; simpl; stays_tac;
    try apply IH.
Qed.

Lemma stays_run q : stays (run E q).
Proof.
  unfold run, run_plan, run_list, run_session, run_info, run_capture,
    run_monitor, run_wait, run_stop, loopUsers_incr.
  stays_tac; try apply stays_list_cameras; try apply stays_EventLoop_exec;
    try apply stays_dispatch; intros w; split; reflexivity.
Qed.

Lemma stays_exec q : stays (exec E q).
Proof.
  unfold exec. apply stays_bind; [apply stays_call, stays_run|intros r].
  unfold cleanup. stays_tac.
Qed.

Lemma stays_init q argv : stays (init E q argv).
Proof. unfold init, parseOptions. stays_tac. Qed.

Lemma history_app_ w last :
  history E w last ->
  app_ w = last /\
  match last with
  | Some p => (p < length (heap w))%nat
  | None => True
  end.
Proof.
  induction 1 as [evs|w last Hw IH|w last q argv Hw IH|w last q Hw IH
                  |w last q Hw IH|w last e Hw IH].
  - split; [reflexivity|exact I].
  - split; [reflexivity|]. simpl. rewrite length_app. simpl. lia.
  - destruct (stays_init q argv w) as (-> & ->). exact IH.
  - destruct (stays_exec q w) as (-> & ->). exact IH.
  - destruct (stays_quit q w) as (-> & ->). exact IH.
  - destruct (stays_deliver e w) as (-> & ->). exact IH.
Qed.

(** C10. Whatever the process has done so far, [CamApp::instance()] is
    the most recently constructed [CamApp] (null before the first
    construction): the constructor publishes the new object, at an address
    that held no object before, and nothing else writes the pointer.  The
    signal handler therefore prints its line and asks the loop of that
    object, and of no other, to exit. *)
Theorem instance_is_latest_CamApp (w : World) (last : option nat) :
  history E w last ->
  instance w = (Val last, w) /\
  (let this' := length (heap w) in
   fst (CamApp_ctor E w) = Val this' /\
   heap w !! this' = None /\
   instance (snd (CamApp_ctor E w)) =
     (Val (Some this'), snd (CamApp_ctor E w))) /\
  match last with
  | None => signalHandler E SIGINT w = (Fault, say [Cout "Exiting"] w)
  | Some p =>
      exists obj,
        heap w !! p = Some obj /\
        signalHandler E SIGINT w =
          (Val tt,
           poke p (set_loop_ (EventLoop_exit E 0 (loop_ obj)) obj)
             (say [Cout "Exiting"; LoopExit 0] w))
  end.
Proof.
  intros Hh. destruct (history_app_ w last Hh) as (Happ & Hlast).
  split; [unfold instance; now rewrite Happ|].
  split.
  { cbv zeta. split; [reflexivity|]. split; [|reflexivity].
    apply lookup_ge_None. lia. }
  destruct last as [p|].
  - destruct (lookup_lt_is_Some_2 (heap w) p Hlast) as (obj & Hobj).
    exists obj. split; [exact Hobj|].
    apply (signalHandler_eq E p obj SIGINT w Hobj Happ).
  - unfold signalHandler, instance, bind. rewrite emit_eq. simpl.
    now rewrite Happ.
Qed.

End Claims.

Lemma captureDone_wraps_at_zero_witness :
  exists w' a',
    captureDone (sample_env (flags [OptMonitor])) 0
      (sample_world (flags [OptMonitor]) 0 []) = (Val tt, w') /\
    heap w' !! 0%nat = Some a' /\
    loopUsers_ a' = (0 - 1) mod 2 ^ 32 /\
    0 <= loopUsers_ a' < 2 ^ 32 /\
    out w' = [] ++ (if loopUsers_ a' =? 0 then [LoopExit 0] else []) /\
    (loopUsers_ a' <> 0 -> loop_ a' = mkLoop 0 false false) /\
    (0 = 0 -> loopUsers_ a' = 4294967295 /\ out w' = [] /\
              loop_ a' = mkLoop 0 false false).
Proof.
  apply (captureDone_wraps_at_zero (sample_env (flags [OptMonitor])) 0%nat
           (sample_app (flags [OptMonitor]) 0)
           (sample_world (flags [OptMonitor]) 0 [])); reflexivity.
Defined.

Lemma hotplug_handlers_only_print_witness :
  ready 0 (sample_app (flags [OptMonitor]) 0)
        (sample_world (flags [OptMonitor]) 0
                      [EvCameraAdded usb_camera; EvSigint]) /\
  exists res w' a' t,
    run (sample_env (flags [OptMonitor])) 0
        (sample_world (flags [OptMonitor]) 0
                      [EvCameraAdded usb_camera; EvSigint]) = (res, w') /\
    out w' = [] ++ t /\
    heap w' !! 0%nat = Some a' /\
    loopUsers_ a' = 1 /\
    (res = Ret 0 /\ In EvSigint [EvCameraAdded usb_camera; EvSigint] \/
     res = Hang /\ ~ In EvSigint [EvCameraAdded usb_camera; EvSigint]).
Proof.
  assert (Hr : ready 0 (sample_app (flags [OptMonitor]) 0)
                 (sample_world (flags [OptMonitor]) 0
                               [EvCameraAdded usb_camera; EvSigint]))
    by (repeat split; auto).
  split; [exact Hr|].
  apply (hotplug_handlers_only_print (sample_env (flags [OptMonitor])) 0%nat
           (sample_app (flags [OptMonitor]) 0)
           (sample_world (flags [OptMonitor]) 0
                         [EvCameraAdded usb_camera; EvSigint]) Hr);
    reflexivity.
Defined.

(** C8. The constructor gives [loopUsers_] no value, so the counter
    [run] finds is whatever the storage of the object held.  When that is
    4294967295, [--monitor] takes the counter to 0 instead of 1: [run]
    prints the two lines of the monitoring, skips the loop and returns,
    and the process exits with status 0 although no interrupt signal was
    delivered; the attach notification that follows is never handled. *)
Theorem monitor_ends_without_signal :
  loopUsers_initial all_ones_env = UINT_MAX /\
  ~ In EvSigint [EvCameraAdded usb_camera] /\
  fst (run_process all_ones_env ["--monitor"%string]
                   [EvCameraAdded usb_camera]) = Ret 0 /\
  effects all_ones_env ["--monitor"%string] [EvCameraAdded usb_camera] =
    [CmStart; Sigaction;
     Cout "Monitoring new hotplug and unplug events";
     Cout "Press Ctrl-C to interrupt";
     CmStop] /\
  option_map loopUsers_
    (heap (snd (run_process all_ones_env ["--monitor"%string]
                            [EvCameraAdded usb_camera])) !! 0%nat) =
    Some 0 /\
  inbox (snd (run_process all_ones_env ["--monitor"%string]
                          [EvCameraAdded usb_camera])) =
    [EvCameraAdded usb_camera].
Proof.
  split; [reflexivity|]. split; [intros [Hd|[]]; discriminate|].
  vm_compute. repeat split.
Qed.

Lemma help_and_empty_input_witness :
  effects help_env ["--help"%string] [] = [ParserUsage] /\
  effects help_env [] [] = [ParserUsage] /\
  fst (run_process help_env ["--help"%string] []) = Ret 0 /\
  fst (run_process help_env [] []) = Ret EXIT_FAILURE /\
  EXIT_FAILURE <> 0.
Proof.
  apply (help_and_empty_input help_env ["--help"%string] [] []);
    reflexivity.
Defined.

(** C5. When the camera manager fails to start with [-EINTR], [init]
    prints the failure and [main] exits with status 0: the code is taken
    for the help request, although every other start failure and every
    other fatal condition gives a failure status (see
    [camera_manager_failure_status] and [fatal_conditions_fail]). *)
Theorem camera_manager_EINTR_exits_zero :
  cm_start interrupted_env <> 0 /\
  fst (run_process interrupted_env ["--list"%string] []) = Ret 0 /\
  effects interrupted_env ["--list"%string] [] =
    [CmStart;
     Cout "Failed to start camera manager: Interrupted system call"].
Proof. repeat split. discriminate. Qed.

Lemma list_prints_derived_names_witness :
  run_list (sample_env (flags [OptList])) 0
           (sample_world (flags [OptList]) 0 []) =
    (Val tt,
     say [Cout "Available cameras:";
          Cout "1: 'SensorA' (cam0)";
          Cout "2: Internal back camera (cam1)"]
         (sample_world (flags [OptList]) 0 [])).
Proof.
  apply (list_prints_derived_names (sample_env (flags [OptList])) 0%nat
           (sample_app (flags [OptList]) 0)
           (sample_world (flags [OptList]) 0 [])); reflexivity.
Defined.

(** C7 as stated fails for an external camera that has a model: the
    model replaces the location text instead of being added to it. *)
Lemma external_camera_with_model :
  Location (properties usb_camera) = Some CameraLocationExternal /\
  cameraName usb_camera = "'Webcam' (cam2)"%string /\
  ~ (forall cam l,
       Location (properties cam) = Some l ->
       String.prefix (location_text l) (cameraName cam) = true).
Proof.
  split; [reflexivity|]. split; [reflexivity|].
  intros Hall.
  specialize (Hall usb_camera CameraLocationExternal eq_refl).
  vm_compute in Hall. discriminate.
Qed.

Lemma missing_camera_aborts_witness :
  run (sample_env (flags [OptCapture])) 0
      (sample_world (flags [OptCapture]) 0 []) =
    (Ret (- ENODEV),
     say [Cout "Can't capture without a camera"]
         (sample_world (flags [OptCapture]) 0 [])) /\
  fst (run_process (sample_env (flags [OptCapture]))
                   ["--capture"%string] []) = Ret EXIT_FAILURE.
Proof.
  pose proof (missing_camera_aborts (sample_env (flags [OptCapture])) 0%nat
                (sample_app (flags [OptCapture]) 0)
                (sample_world (flags [OptCapture]) 0 [])
                ["--capture"%string] []
                eq_refl eq_refl eq_refl eq_refl eq_refl eq_refl eq_refl)
    as (Hrun & _ & _ & _ & Hstatus & _).
  split; [exact Hrun|exact Hstatus].
Defined.

(** C4 as stated fails when capture is requested together with stream
    information and no camera: the run fails with the [no camera]
    condition of step 3, not with the [no device] condition of step 4. *)
Lemma capture_with_info_without_camera :
  isSet (flags [OptInfo; OptCapture]) OptCapture = true /\
  isSet (flags [OptInfo; OptCapture]) OptCamera = false /\
  run (sample_env (flags [OptInfo; OptCapture])) 0
      (sample_world (flags [OptInfo; OptCapture]) 0 []) =
    (Ret (- EINVAL),
     say [Cout "Cannot print camera information without a camera"]
         (sample_world (flags [OptInfo; OptCapture]) 0 [])) /\
  - EINVAL <> - ENODEV.
Proof. repeat split. discriminate. Qed.

Lemma capture_stopped_exactly_once_witness :
  ready 0 (sample_app (flags [OptCamera; OptCapture]) 0)
        (sample_world (flags [OptCamera; OptCapture]) 0 [EvCaptureDone]) /\
  exists res w' t,
    run (sample_env (flags [OptCamera; OptCapture])) 0
        (sample_world (flags [OptCamera; OptCapture]) 0 [EvCaptureDone])
      = (res, w') /\
    out w' = [] ++ t /\
    In (SessionStart 0) t /\
    (res = Ret 0 /\ count is_SessionStop t = 1%nat /\
     last t = Some SessionStop
     \/
     res = Hang /\ count is_SessionStop t = 0%nat /\
     ~ In EvSigint [EvCaptureDone]).
Proof.
  assert (Hr : ready 0 (sample_app (flags [OptCamera; OptCapture]) 0)
                 (sample_world (flags [OptCamera; OptCapture]) 0
                               [EvCaptureDone]))
    by (repeat split; auto).
  split; [exact Hr|].
  apply (capture_stopped_exactly_once
           (sample_env (flags [OptCamera; OptCapture])) 0%nat
           (sample_app (flags [OptCamera; OptCapture]) 0)
           (sample_world (flags [OptCamera; OptCapture]) 0 [EvCaptureDone])
           Hr); try reflexivity.
  unfold is_uint, UINT_MAX, UINT_BITS. simpl. lia.
Defined.

Lemma loop_runs_exit_zero_witness :
  In LoopExec (effects (sample_env (flags [OptMonitor]))
                       ["--monitor"%string] [EvSigint]) /\
  (fst (run_process (sample_env (flags [OptMonitor]))
                    ["--monitor"%string] [EvSigint]) = Ret 0 \/
   fst (run_process (sample_env (flags [OptMonitor]))
                    ["--monitor"%string] [EvSigint]) = Hang /\
   ~ In EvSigint [EvSigint]).
Proof.
  assert (Hloop : In LoopExec (effects (sample_env (flags [OptMonitor]))
                                       ["--monitor"%string] [EvSigint])).
  { vm_compute. tauto. }
  split; [exact Hloop|].
  exact (loop_runs_exit_zero (sample_env (flags [OptMonitor]))
           ["--monitor"%string] [EvSigint] Hloop).
Defined.

(** C2 as stated fails: the handler runs, and the process still exits
    with the failure status of the fatal condition. *)
Lemma sigint_before_failed_capture :
  sigint_before_loop early_sigint_env = true /\
  effects early_sigint_env ["--capture"%string] [] =
    [CmStart; Sigaction; Cout "Exiting"; LoopExit 0;
     Cout "Can't capture without a camera"; CmStop] /\
  fst (run_process early_sigint_env ["--capture"%string] [])
    = Ret EXIT_FAILURE /\
  EXIT_FAILURE <> 0.
Proof. repeat split. discriminate. Qed.

Lemma counter_drives_the_loop_witness :
  ready 0 (sample_app both_flags 0) (sample_world both_flags 0 both_events) /\
  exists res w' a' t,
    run (sample_env both_flags) 0 (sample_world both_flags 0 both_events)
      = (res, w') /\
    out w' = [] ++ t /\
    heap w' !! 0%nat = Some a' /\
    0 <= loopUsers_ a' /\
    (In LoopExec t <-> 0 < 2) /\
    (In LoopExec t -> res = Ret 0 /\ inbox w' = [EvCaptureDone]).
Proof.
  assert (Hr : ready 0 (sample_app both_flags 0)
                 (sample_world both_flags 0 both_events))
    by (repeat split; auto).
  assert (Hu : is_uint (loopUsers_ (sample_app both_flags 0)))
    by (split; discriminate).
  assert (Hok : counters_ok (sample_world both_flags 0 both_events)).
  { intros [|p] b Hp; simpl in Hp; [|discriminate].
    inversion Hp; subst. exact Hu. }
  split; [exact Hr|].
  destruct (counter_drives_the_loop (sample_env both_flags) 0%nat
              (sample_app both_flags 0)
              (sample_world both_flags 0 both_events) Hr Hu Hok)
    as (_ & res & w' & a' & t & Hrun & Hout & H' & Hpos & _ & _ & Hplan).
  exists res, w', a', t. repeat (split; [assumption|]).
  destruct (Hplan
              (Some (mkSession sensor_camera))
              (snd (run_plan (sample_env both_flags) 0
                      (sample_world both_flags 0 both_events)))
              (sample_app both_flags 2) eq_refl eq_refl)
    as (Hiff & Hloop).
  split; [exact Hiff|].
  intros Hin. exact (Hloop Hin eq_refl).
Defined.

Lemma instance_is_latest_CamApp_witness :
  instance
    (snd (CamApp_ctor (sample_env both_flags)
            (snd (CamApp_ctor (sample_env both_flags) (boot [])))))
  = (Val (Some 1%nat),
     snd (CamApp_ctor (sample_env both_flags)
            (snd (CamApp_ctor (sample_env both_flags) (boot []))))).
Proof.
  apply (instance_is_latest_CamApp (sample_env both_flags)
           (snd (CamApp_ctor (sample_env both_flags)
                   (snd (CamApp_ctor (sample_env both_flags) (boot [])))))
           (Some 1%nat)).
  apply (hist_ctor (sample_env both_flags)
           (snd (CamApp_ctor (sample_env both_flags) (boot []))) (Some 0%nat)).
  apply (hist_ctor (sample_env both_flags) (boot []) None).
  apply hist_boot.
Defined.

(** * Further properties of [main.cpp] *)

Section Further.

Variable E : Env.
Variable this : nat.

(** X1. When the session of the selected camera is not valid, [run]
    prints the listing of step 1 if it was asked for, constructs the
    session, prints the failure and returns [-EINVAL]; nothing else
    changes: [captureDone] is not connected, no later step runs, the
    counter keeps its value. *)
Theorem invalid_session_aborts (a : CamApp) (w : World) :
  heap w !! this = Some a ->
  isSet (options_ a) OptCamera = true ->
  session_isValid E = false ->
  run E this w =
  (Ret (- EINVAL),
   say (listing E (options_ a) ++
        [SessionNew; Cout "Failed to create camera session"]) w).
Proof.
  intros H Hcam Hvalid.
  unfold run, run_plan, bind.
  rewrite (run_list_eq E this a w H).
  rewrite (run_session_eq E this a (say _ w)) by exact H.
  rewrite Hcam, Hvalid. now rewrite say_say.
Qed.

(** X2. When [session->start()] fails, [run] returns the code that
    [start] returned, after the steps before it (listing, session,
    camera information) and the failure message; the counter is not
    incremented, hotplug monitoring is not enabled even if it was asked
    for, the loop is not entered and [session->stop()] is not called. *)
Theorem failed_start_aborts (a : CamApp) (w : World) :
  heap w !! this = Some a ->
  isSet (options_ a) OptCamera = true ->
  session_isValid E = true ->
  isSet (options_ a) OptCapture = true ->
  session_start E <> 0 ->
  exists w',
    run E this w = (Ret (session_start E), w') /\
    out w' =
      out w ++ listing E (options_ a) ++ session_trace E (options_ a) ++
      [SessionStart (session_start E);
       Cout "Failed to start camera session"] /\
    heap w' = heap w /\
    captureDone_slot w' = Some this /\
    hotplug_slot w' = hotplug_slot w /\
    inbox w' = inbox w.
Proof.
  intros H Hcam Hvalid Hcap Hstart.
  unfold run, run_plan, bind.
  rewrite (run_list_eq E this a w H).
  rewrite (run_session_eq E this a (say _ w)) by exact H.
  rewrite Hcam, Hvalid.
  erewrite run_info_eq by exact H.
  assert (Hne : (session_start E =? 0) = false) by now apply Z.eqb_neq.
  unfold session_trace.
  destruct (wants_info (options_ a)) eqn:Hinfo.
  - erewrite run_capture_eq by exact H. rewrite Hcap, Hne.
    eexists. split; [reflexivity|]. simpl.
    rewrite <- !app_assoc. simpl. auto 6.
  - erewrite run_capture_eq by exact H. rewrite Hcap, Hne.
    eexists. split; [reflexivity|]. simpl.
    assert (info_calls (options_ a) = []) as ->.
    { unfold wants_info in Hinfo. unfold info_calls.
      destruct (isSet (options_ a) OptListControls),
               (isSet (options_ a) OptListProperties),
               (isSet (options_ a) OptInfo); try discriminate; reflexivity. }
    rewrite <- !app_assoc. simpl. auto 6.
Qed.

Lemma info_calls_none (o : Options) :
  wants_info o = false -> info_calls o = [].
Proof.
  unfold wants_info, info_calls.
  destruct (isSet o OptListControls), (isSet o OptListProperties),
           (isSet o OptInfo); try discriminate; reflexivity.
Qed.

(** X3. With neither capture nor monitoring asked for, no fatal
    condition and the counter at 0 on entry, [run] returns 0 without
    entering the loop and without starting or stopping the session: it
    only prints the listing and, for a selected camera, constructs the
    session and prints the information asked for.  The object is left as
    it was. *)
Theorem listing_run_returns (a : CamApp) (w : World) :
  heap w !! this = Some a ->
  loopUsers_ a = 0 ->
  isSet (options_ a) OptCapture = false ->
  isSet (options_ a) OptMonitor = false ->
  plan_fails E (options_ a) = false ->
  exists w',
    run E this w = (Ret 0, w') /\
    out w' =
      out w ++ listing E (options_ a) ++
      (if isSet (options_ a) OptCamera
       then session_trace E (options_ a) else []) /\
    heap w' = heap w /\
    hotplug_slot w' = hotplug_slot w /\
    inbox w' = inbox w.
Proof.
  intros H Hu Hcap Hmon Hfails.
  unfold plan_fails in Hfails. rewrite Hcap in Hfails.
  unfold run, run_plan, run_wait, bind.
  rewrite (run_list_eq E this a w H).
  rewrite (run_session_eq E this a (say _ w)) by exact H.
  unfold session_trace.
  destruct (isSet (options_ a) OptCamera) eqn:Hcam.
  - destruct (session_isValid E); [|discriminate].
    erewrite run_info_eq by exact H.
    destruct (wants_info (options_ a)) eqn:Hinfo.
    + erewrite run_capture_eq by exact H. rewrite Hcap.
      erewrite run_monitor_eq by exact H. rewrite Hmon.
      cbv beta iota zeta delta [ret].
      erewrite deref_eq by exact H. rewrite Hu. simpl.
      erewrite run_stop_eq by exact H. rewrite Hcap.
      eexists. split; [reflexivity|]. simpl.
      rewrite <- !app_assoc. auto.
    + erewrite run_capture_eq by exact H. rewrite Hcap.
      erewrite run_monitor_eq by exact H. rewrite Hmon.
      cbv beta iota zeta delta [ret].
      erewrite deref_eq by exact H. rewrite Hu. simpl.
      erewrite run_stop_eq by exact H. rewrite Hcap.
      eexists. split; [reflexivity|]. simpl.
      rewrite (info_calls_none _ Hinfo), <- !app_assoc. auto.
  - rewrite orb_false_r in Hfails.
    erewrite run_info_eq by exact H. rewrite Hfails.
    erewrite run_capture_eq by exact H. rewrite Hcap.
    erewrite run_monitor_eq by exact H. rewrite Hmon.
    cbv beta iota zeta delta [ret].
    erewrite deref_eq by exact H. rewrite Hu. simpl.
    erewrite run_stop_eq by exact H. rewrite Hcap.
    eexists. split; [reflexivity|]. simpl.
    rewrite app_nil_r. auto.
Qed.

(** X4. [exec] always cleans up after [run]: whatever [run] returns, 0
    or the code of a fatal condition, [exec] stops the camera manager
    once, after everything [run] did, and returns that same value; only
    when [run] stays blocked in the loop is the camera manager not
    stopped. *)
Theorem exec_always_cleans_up (a : CamApp) (w : World) :
  ready this a w -> is_uint (loopUsers_ a) -> cm_ a = true ->
  exists res w1,
    run E this w = (res, w1) /\
    ((exists r, res = Ret r /\
                exec E this w = (Ret r, say [CmStop] w1)) \/
     (res = Hang /\ exec E this w = (Hang, w1))).
Proof.
  intros Hr Hu Hcm.
  destruct (run_inv E this a w Hr Hu)
    as (res & w' & a' & t & Hrun & Hout & H' & Ho' & Hc' & Hok & Happ & Hloop
        & Hshape & _).
  exists res, w'. split; [exact Hrun|].
  unfold exec, bind, call. rewrite Hrun.
  destruct (outcome_result _ _ _ _ _ _ _ _ _ _ Hshape) as [(r & ->) | ->].
  - left. exists r. split; [reflexivity|].
    rewrite (cleanup_eq this a' w' H') by congruence. reflexivity.
  - right. split; reflexivity.
Qed.

(** X5. [init] returns 0 exactly when the options are valid, not empty
    and without [--help] and the camera manager starts.  It calls
    [cm_->start()] exactly when the options pass, and not at all
    otherwise.  In every case it has stored the parsed options in the
    object and left the counter and the loop alone. *)
Theorem init_succeeds_iff (a : CamApp) (argv : list string) (w : World) :
  heap w !! this = Some a ->
  exists r w' a' t,
    init E this argv w = (Ret r, w') /\
    (r = 0 <-> init_ok E argv = true) /\
    out w' = out w ++ t /\
    count is_CmStart t = (if reaches_cm E argv then 1 else 0)%nat /\
    heap w' !! this = Some a' /\
    options_ a' = parse E argv /\
    cm_ a' = (if reaches_cm E argv then true else cm_ a) /\
    loopUsers_ a' = loopUsers_ a /\
    loop_ a' = loop_ a.
Proof.
  intros H. rewrite (init_eq E this a argv w H). cbv zeta.
  unfold init_ok, reaches_cm.
  destruct (valid (parse E argv)); cbn [negb andb].
  2:{ exists (- EINVAL), (poke this (set_options_ (parse E argv) a) w),
        (set_options_ (parse E argv) a), [].
      repeat split; try discriminate; try reflexivity.
      - simpl. now rewrite app_nil_r.
      - now apply poke_lookup with a. }
  destruct (empty (parse E argv)); cbn [negb andb orb].
  { exists (- EINVAL),
      (say [ParserUsage] (poke this (set_options_ (parse E argv) a) w)),
      (set_options_ (parse E argv) a), [ParserUsage].
    repeat split; try discriminate; try reflexivity.
    now apply poke_lookup with a. }
  destruct (isSet (parse E argv) OptHelp); cbn [negb andb].
  { exists (- EINTR),
      (say [ParserUsage] (poke this (set_options_ (parse E argv) a) w)),
      (set_options_ (parse E argv) a), [ParserUsage].
    repeat split; try discriminate; try reflexivity.
    now apply poke_lookup with a. }
  destruct (cm_start E =? 0) eqn:Hcm.
  - exists 0,
      (say [CmStart]
         (poke this (set_cm_ true (set_options_ (parse E argv) a)) w)),
      (set_cm_ true (set_options_ (parse E argv) a)), [CmStart].
    repeat split; try reflexivity.
    now apply poke_lookup with a.
  - eexists (cm_start E), _,
      (set_cm_ true (set_options_ (parse E argv) a)), _.
    split; [reflexivity|]. apply Z.eqb_neq in Hcm.
    repeat split; try reflexivity; try discriminate; try tauto.
    now apply poke_lookup with a.
Qed.

Lemma outcome_status fails o u pending connected evs res t u' rest :
  outcome fails o u pending connected evs res t u' rest ->
  match res with
  | Ret r => (r =? 0) = negb fails
  | Hang => fails = false
  | Val _ | Fault => False
  end.
Proof.
  intros []; subst; try reflexivity.
  simpl. now apply Z.eqb_neq.
Qed.

(** X6. The process never dereferences a null pointer and never leaks an
    error code: for every answer of the parser, the camera manager and
    the session and every sequence of notifications, [main] either stays
    blocked in the loop or exits with 0 or [EXIT_FAILURE], and the exit
    status is 0 exactly when the options are valid and not empty and
    either help was asked for, or the camera manager failed with
    [-EINTR], or it started and no step of [run] met a fatal condition.
    It can stay blocked only after [init] succeeded and no step failed. *)
Theorem exit_status_table (argv : list string) (evs : list Event) :
  match fst (run_process E argv evs) with
  | Ret r => r = exit_status E argv
  | Hang => init_ok E argv = true /\ plan_fails E (parse E argv) = false
  | Val _ | Fault => False
  end.
Proof.
  unfold exit_status, init_ok, reaches_cm.
  destruct (main_inv E argv evs)
    as [Hv | Hv He | Hv He Hh | Hv He Hh Hcm
        | r tr u rest Hv He Hh Hcm Hrun | tr u rest Hv He Hh Hcm Hrun].
  - now rewrite Hv.
  - now rewrite Hv, He.
  - now rewrite Hv, He, Hh.
  - rewrite Hv, He, Hh. apply Z.eqb_neq in Hcm. rewrite Hcm. cbn.
    now rewrite orb_false_r.
  - rewrite Hv, He, Hh, Hcm. cbn.
    apply outcome_status in Hrun. rewrite Hrun.
    now destruct (plan_fails E (parse E argv)).
  - rewrite Hv, He, Hh, Hcm. cbn.
    apply outcome_status in Hrun. auto.
Qed.

Lemma outcome_count (p : Effect -> bool)
    fails o u pending connected evs res t u' rest :
  (forall e, plan_effect e = true -> p e = false) ->
  (forall e, handler_effect e = true -> p e = false) ->
  p LoopExec = false -> p SessionStop = false ->
  outcome fails o u pending connected evs res t u' rest ->
  count p t = 0%nat.
Proof.
  intros Hplan Hhandler Hexec Hstop.
  assert (Hs : count p (stop_trace o) = 0%nat).
  { unfold stop_trace. destruct (isSet o OptCapture); simpl;
      now rewrite ?Hstop. }
  intros [r t0 _ _ Hall _ | tp _ [Hall _] _ | tp _ [Hall _] _ _
         | tp tl n _ [Hall _] _ _ Hl _ | tp tl rest0 _ [Hall _] _ _ Hl _];
    repeat (rewrite ?count_app; cbn [count]);
    rewrite ?Hexec, ?Hs, ?(count_forallb _ _ _ Hplan Hall),
      ?(count_forallb _ _ _ Hhandler Hl); reflexivity.
Qed.

Lemma early_trace_count (p : Effect -> bool) :
  (forall e, handler_effect e = true -> p e = false) ->
  count p (early_trace E) = 0%nat.
Proof.
  intros Hhandler. unfold early_trace.
  destruct (sigint_before_loop E); [|reflexivity].
  cbn [count]. now rewrite !Hhandler.
Qed.

(** X7. The camera manager is started at most once, and only for
    options that are valid, not empty and without [--help]; the SIGINT
    handler is installed once, and only after [init] succeeded.  A
    process that exits has stopped the camera manager exactly once if
    [init] succeeded, as its last action, and not at all otherwise, in
    particular not after a failed start; a process that stays blocked in
    the loop has not stopped it. *)
Theorem camera_manager_bracket (argv : list string) (evs : list Event) :
  let t := effects E argv evs in
  count is_CmStart t = (if reaches_cm E argv then 1 else 0)%nat /\
  count is_Sigaction t = (if init_ok E argv then 1 else 0)%nat /\
  match fst (run_process E argv evs) with
  | Ret _ =>
      count is_CmStop t = (if init_ok E argv then 1 else 0)%nat /\
      (if init_ok E argv then last t = Some CmStop else True)
  | _ => count is_CmStop t = 0%nat
  end.
Proof.
  unfold init_ok, reaches_cm. cbv zeta.
  destruct (main_inv E argv evs)
    as [Hv | Hv He | Hv He Hh | Hv He Hh Hcm
        | r tr u rest Hv He Hh Hcm Hrun | tr u rest Hv He Hh Hcm Hrun].
  - rewrite Hv. cbn. auto.
  - rewrite Hv, He. cbn. auto.
  - rewrite Hv, He, Hh. cbn. auto.
  - rewrite Hv, He, Hh. apply Z.eqb_neq in Hcm. rewrite Hcm. cbn. auto.
  - rewrite Hv, He, Hh, Hcm. cbn [andb negb Z.eqb count is_CmStart
      is_Sigaction is_CmStop].
    rewrite !count_app.
    rewrite !early_trace_count by now intros [].
    rewrite (outcome_count is_CmStart _ _ _ _ _ _ _ _ _ _
               ltac:(now intros []) ltac:(now intros [])
               eq_refl eq_refl Hrun).
    rewrite (outcome_count is_Sigaction _ _ _ _ _ _ _ _ _ _
               ltac:(now intros []) ltac:(now intros [])
               eq_refl eq_refl Hrun).
    rewrite (outcome_count is_CmStop _ _ _ _ _ _ _ _ _ _
               ltac:(now intros []) ltac:(now intros [])
               eq_refl eq_refl Hrun).
    repeat split.
    change (CmStart :: Sigaction :: early_trace E ++ tr ++ [CmStop])
      with ([CmStart; Sigaction] ++ early_trace E ++ tr ++ [CmStop]).
    now rewrite !app_assoc, last_snoc.
  - rewrite Hv, He, Hh, Hcm. cbn [andb negb Z.eqb count is_CmStart
      is_Sigaction is_CmStop].
    rewrite !count_app.
    rewrite !early_trace_count by now intros [].
    rewrite (outcome_count is_CmStart _ _ _ _ _ _ _ _ _ _
               ltac:(now intros []) ltac:(now intros [])
               eq_refl eq_refl Hrun).
    rewrite (outcome_count is_Sigaction _ _ _ _ _ _ _ _ _ _
               ltac:(now intros []) ltac:(now intros [])
               eq_refl eq_refl Hrun).
    rewrite (outcome_count is_CmStop _ _ _ _ _ _ _ _ _ _
               ltac:(now intros []) ltac:(now intros [])
               eq_refl eq_refl Hrun).
    repeat split.
Qed.

Lemma uint_decr_small u : 1 <= u <= UINT_MAX -> uint_decr u = u - 1.
Proof.
  intros Hu. unfold uint_decr, uint_wrap. apply Z.mod_small.
  unfold UINT_MAX in Hu. lia.
Qed.

Lemma drive_app (l1 l2 : list CounterEvent) : forall w,
  drive E this (l1 ++ l2) w =
  (drive E this l1 ;; drive E this l2) w.
Proof.
  induction l1 as [|[] l1 IH]; intros w; cbn [drive app].
  - reflexivity.
  - unfold bind in *. destruct (loopUsers_incr this w) as [[] w1];
      try reflexivity. apply IH.
  - unfold bind in *. destruct (captureDone E this w) as [[] w1];
      try reflexivity. apply IH.
Qed.

Lemma drive_starts (n : nat) : forall a w,
  heap w !! this = Some a ->
  0 <= loopUsers_ a -> loopUsers_ a + Z.of_nat n <= UINT_MAX ->
  exists w' a',
    drive E this (replicate n Started) w = (Val tt, w') /\
    heap w' !! this = Some a' /\
    loopUsers_ a' = loopUsers_ a + Z.of_nat n /\
    out w' = out w /\ loop_instance_ w' = loop_instance_ w.
Proof.
  induction n as [|n IH]; intros a w H Hlo Hhi.
  - exists w, a. repeat split; [exact H|lia].
  - cbn [replicate drive]. unfold bind.
    rewrite (loopUsers_incr_eq this a w H).
    set (a1 := set_loopUsers_ _ a).
    assert (Hu1 : loopUsers_ a1 = loopUsers_ a + 1).
    { subst a1. cbn [loopUsers_ set_loopUsers_].
      apply uint_incr_small. lia. }
    destruct (IH a1 (poke this a1 w) (poke_lookup this a a1 w H))
      as (w' & a' & Hd & H' & Hu' & Hout & Hinst); [lia..|].
    exists w', a'. rewrite Hd, H', Hu', Hout, Hinst. repeat split. lia.
Qed.

Lemma drive_completions (n : nat) : forall a w,
  heap w !! this = Some a -> loop_instance_ w = Some this ->
  Z.of_nat n <= loopUsers_ a <= UINT_MAX ->
  exists w' a',
    drive E this (replicate n Completed) w = (Val tt, w') /\
    heap w' !! this = Some a' /\
    loopUsers_ a' = loopUsers_ a - Z.of_nat n /\
    out w' =
      out w ++
      (if (0 <? Z.of_nat n) && (loopUsers_ a =? Z.of_nat n)
       then [LoopExit 0] else []).
Proof.
  induction n as [|n IH]; intros a w H Hinst Hu.
  - exists w, a. repeat split; [exact H|lia|now rewrite app_nil_r].
  - cbn [replicate drive]. unfold bind.
    rewrite (captureDone_eq E this a w H Hinst).
    set (a1 := event_object E true EvCaptureDone a).
    assert (Hu1 : loopUsers_ a1 = loopUsers_ a - 1).
    { subst a1. cbn [event_object].
      destruct (uint_decr (loopUsers_ a) =? 0);
        cbn [loopUsers_ set_loopUsers_ set_loop_];
        apply uint_decr_small; lia. }
    destruct (IH a1
                (poke this a1
                   (say (event_trace true false EvCaptureDone a) w))
                (poke_lookup this a a1 _ H) Hinst)
      as (w' & a' & Hd & H' & Hu' & Hout); [lia|].
    exists w', a'. rewrite Hd, H', Hu', Hout, Hu1.
    repeat split; [lia|].
    cbn [out poke say set_heap set_out event_trace andb].
    rewrite (uint_decr_small (loopUsers_ a)) by lia.
    rewrite <- app_assoc. f_equal.
    destruct (Z.eqb_spec (loopUsers_ a - 1) 0);
      destruct (Z.ltb_spec 0 (Z.of_nat n));
      destruct (Z.eqb_spec (loopUsers_ a - 1) (Z.of_nat n));
      destruct (Z.ltb_spec 0 (Z.of_nat (S n)));
      destruct (Z.eqb_spec (loopUsers_ a) (Z.of_nat (S n)));
      try reflexivity; exfalso; lia.
Qed.

(** X8. The counter balances starts and completions: from a counter
    [u], after [n] activities were started ([loopUsers_++]) and [m] of
    the outstanding ones completed ([captureDone()]), the counter is
    [u + n - m], and the loop was asked to exit exactly once, with code
    0, if the last completion was the one that took the counter to 0,
    and not at all otherwise. *)
Theorem completions_balance_starts (a : CamApp) (w : World) (n m : nat) :
  heap w !! this = Some a -> loop_instance_ w = Some this ->
  0 <= loopUsers_ a ->
  loopUsers_ a + Z.of_nat n <= UINT_MAX ->
  Z.of_nat m <= loopUsers_ a + Z.of_nat n ->
  exists w' a',
    drive E this (replicate n Started ++ replicate m Completed) w =
      (Val tt, w') /\
    heap w' !! this = Some a' /\
    loopUsers_ a' = loopUsers_ a + Z.of_nat n - Z.of_nat m /\
    out w' =
      out w ++
      (if (0 <? Z.of_nat m) && (loopUsers_ a + Z.of_nat n =? Z.of_nat m)
       then [LoopExit 0] else []).
Proof.
  intros H Hinst Hlo Hhi Hm.
  destruct (drive_starts n a w H Hlo Hhi)
    as (w1 & a1 & Hd1 & H1 & Hu1 & Hout1 & Hinst1).
  destruct (drive_completions m a1 w1 H1) as (w2 & a2 & Hd2 & H2 & Hu2 & Hout2);
    [congruence|lia|].
  exists w2, a2. rewrite drive_app. unfold bind. rewrite Hd1, Hd2.
  rewrite H2, Hu2, Hout2, Hu1, Hout1. auto.
Qed.

Lemma run_plan_trace (a : CamApp) (w : World) session w1 :
  heap w !! this = Some a ->
  run_plan E this w = (Val session, w1) ->
  out w1 = out w ++ planned_trace E (options_ a).
Proof.
  intros H. unfold run_plan, bind, planned_trace, session_trace.
  rewrite (run_list_eq E this a w H).
  rewrite (run_session_eq E this a (say _ w) H).
  destruct (isSet (options_ a) OptCamera) eqn:Hcam;
    [destruct (session_isValid E) eqn:Hval|];
    cbv beta iota zeta;
    try (erewrite run_info_eq by exact H;
         destruct (wants_info (options_ a)) eqn:Hinfo;
         cbv beta iota zeta);
    try (erewrite run_capture_eq by exact H;
         destruct (isSet (options_ a) OptCapture) eqn:Hcap;
         try destruct (session_start E =? 0) eqn:Hstart;
         cbv beta iota zeta);
    try (erewrite run_monitor_eq
           by first [exact H | eapply poke_lookup; exact H];
         cbn [options_ loopUsers_ set_loopUsers_];
         destruct (isSet (options_ a) OptMonitor) eqn:Hmon;
         cbv beta iota zeta delta [ret]);
    intros Hrun; inversion Hrun; subst; clear Hrun.
  all: try apply Z.eqb_eq in Hstart; rewrite ?Hstart.
  all: rewrite ?(info_calls_none _ Hinfo).
  all: simpl; rewrite <- ?app_assoc, ?app_nil_r; reflexivity.
Qed.

(** X9. When no step meets a fatal condition, steps 1 to 5 of [run] act
    in the order of the source and each at most once: the listing, the
    session with the camera information, the start of the capture, the
    two lines of the monitoring.  They leave the counter incremented by
    one for a started capture and by one for monitoring, [captureDone]
    connected exactly when a camera was selected and the hotplug
    handlers connected exactly when monitoring was asked for; [run]
    then goes on to the wait point with the session of step 2. *)
Theorem plan_steps_in_order (a : CamApp) (w : World) :
  heap w !! this = Some a ->
  plan_fails E (options_ a) = false ->
  exists session w1 a1,
    run_plan E this w = (Val session, w1) /\
    run E this w =
      (run_wait E this ;; run_stop this session ;; return_ 0) w1 /\
    out w1 = out w ++ planned_trace E (options_ a) /\
    heap w1 !! this = Some a1 /\
    loopUsers_ a1 = planned_users (options_ a) (loopUsers_ a) /\
    non_null session = isSet (options_ a) OptCamera /\
    captureDone_slot w1 =
      (if isSet (options_ a) OptCamera then Some this
       else captureDone_slot w) /\
    hotplug_slot w1 =
      (if isSet (options_ a) OptMonitor then Some this
       else hotplug_slot w).
Proof.
  intros H Hfails.
  destruct (run_plan E this w) as [res w1] eqn:Hplan.
  destruct (run_plan_inv E this a w res w1 H Hplan)
    as (t & a1 & _ & _ & H1 & _ & _ & _ & _ & _ & _ & _ & Hres).
  destruct res as [session|r| |]; try contradiction.
  2:{ destruct Hres as (Hf & _). congruence. }
  destruct Hres as (_ & Hu & Hs & _ & _ & Hcd & Hhp).
  exists session, w1, a1. split; [reflexivity|].
  split; [unfold run, bind; now rewrite Hplan|].
  split; [eapply run_plan_trace; eauto|]. auto 6.
Qed.

Lemma outcome_session fails o u pending connected evs res t u' rest :
  outcome fails o u pending connected evs res t u' rest ->
  let started :=
    (if negb fails && isSet o OptCapture then 1 else 0)%nat in
  count is_SessionStart_ok t = started /\
  count is_SessionStop t =
    match res with Ret _ => started | _ => 0%nat end.
Proof.
  assert (Hs : count is_SessionStop (stop_trace o) =
               (if isSet o OptCapture then 1 else 0)%nat)
    by (unfold stop_trace; now destruct (isSet o OptCapture)).
  assert (Hs' : count is_SessionStart_ok (stop_trace o) = 0%nat)
    by (unfold stop_trace; now destruct (isSet o OptCapture)).
  assert (Hh : forall tl, forallb handler_effect tl = true ->
                          count is_SessionStart_ok tl = 0%nat)
    by (intros tl; apply count_forallb; now intros []).
  intros [r t0 -> _ Hall Hc | tp -> [Hall Hc] _ | tp -> [Hall Hc] _ _
         | tp tl n -> [Hall Hc] _ _ Hl _ | tp tl rest0 -> [Hall Hc] _ _ Hl _];
    cbv zeta; cbn [negb andb];
    repeat (rewrite ?count_app; cbn [count is_SessionStop
                                     is_SessionStart_ok]);
    rewrite ?Hs, ?Hs', ?Hc, ?(plan_effect_no_stop _ Hall),
      ?(handler_effect_no_stop _ Hl), ?(Hh _ Hl);
    split; try reflexivity; lia.
Qed.

(** X10. The session is started at most once in the life of the
    process, and only when [init] succeeded, capture was asked for and
    no earlier step failed; it is never stopped without having been
    started successfully.  A process that exits has stopped the session
    exactly as often as it started it; a process that stays blocked in
    the loop has not stopped it. *)
Theorem session_stop_matches_start (argv : list string) (evs : list Event) :
  let t := effects E argv evs in
  let started :=
    (if init_ok E argv && negb (plan_fails E (parse E argv)) &&
        isSet (parse E argv) OptCapture
     then 1 else 0)%nat in
  count is_SessionStart_ok t = started /\
  count is_SessionStop t =
    match fst (run_process E argv evs) with
    | Ret _ => started
    | _ => 0%nat
    end.
Proof.
  unfold init_ok, reaches_cm. cbv zeta.
  destruct (main_inv E argv evs)
    as [Hv | Hv He | Hv He Hh | Hv He Hh Hcm
        | r tr u rest Hv He Hh Hcm Hrun | tr u rest Hv He Hh Hcm Hrun].
  - rewrite Hv. cbn. auto.
  - rewrite Hv, He. cbn. auto.
  - rewrite Hv, He, Hh. cbn. auto.
  - rewrite Hv, He, Hh. apply Z.eqb_neq in Hcm. rewrite Hcm. cbn. auto.
  - rewrite Hv, He, Hh, Hcm.
    cbn [andb negb Z.eqb count is_SessionStop is_SessionStart_ok fst].
    rewrite !count_app.
    rewrite (early_trace_count is_SessionStop) by now intros [].
    rewrite (early_trace_count is_SessionStart_ok) by now intros [].
    destruct (outcome_session _ _ _ _ _ _ _ _ _ _ Hrun) as [-> ->].
    cbn. split; lia.
  - rewrite Hv, He, Hh, Hcm.
    cbn [andb negb Z.eqb count is_SessionStop is_SessionStart_ok fst].
    rewrite !count_app.
    rewrite (early_trace_count is_SessionStop) by now intros [].
    rewrite (early_trace_count is_SessionStart_ok) by now intros [].
    destruct (outcome_session _ _ _ _ _ _ _ _ _ _ Hrun) as [-> ->].
    cbn. split; lia.
Qed.

End Further.

(** ** Sample runs of the further properties *)

Lemma invalid_session_aborts_witness :
  run (no_session_env list_flags) 0 (sample_world list_flags 0 []) =
  (Ret (- EINVAL),
   say (listing (no_session_env list_flags) list_flags ++
        [SessionNew; Cout "Failed to create camera session"])
       (sample_world list_flags 0 [])).
Proof.
  apply (invalid_session_aborts (no_session_env list_flags) 0%nat
           (sample_app list_flags 0) (sample_world list_flags 0 []));
    reflexivity.
Defined.

Lemma failed_start_aborts_witness :
  exists w',
    run (busy_env both_flags) 0 (sample_world both_flags 0 []) =
      (Ret (-16), w') /\
    out w' =
      [] ++ listing (busy_env both_flags) both_flags ++
      session_trace (busy_env both_flags) both_flags ++
      [SessionStart (-16); Cout "Failed to start camera session"] /\
    heap w' = [sample_app both_flags 0] /\
    captureDone_slot w' = Some 0%nat /\
    hotplug_slot w' = None /\
    inbox w' = [].
Proof.
  apply (failed_start_aborts (busy_env both_flags) 0%nat
           (sample_app both_flags 0) (sample_world both_flags 0 []));
    try reflexivity.
  simpl. lia.
Defined.

Lemma listing_run_returns_witness :
  exists w',
    run (sample_env info_flags) 0 (sample_world info_flags 0 []) =
      (Ret 0, w') /\
    out w' =
      [] ++ listing (sample_env info_flags) info_flags ++
      session_trace (sample_env info_flags) info_flags /\
    heap w' = [sample_app info_flags 0] /\
    hotplug_slot w' = None /\
    inbox w' = [].
Proof.
  apply (listing_run_returns (sample_env info_flags) 0%nat
           (sample_app info_flags 0) (sample_world info_flags 0 []));
    reflexivity.
Defined.

Lemma exec_always_cleans_up_witness :
  ready 0 (sample_app (flags [OptCapture]) 0)
        (sample_world (flags [OptCapture]) 0 []) /\
  exists res w1,
    run (sample_env (flags [OptCapture])) 0
        (sample_world (flags [OptCapture]) 0 []) = (res, w1) /\
    ((exists r, res = Ret r /\
                exec (sample_env (flags [OptCapture])) 0
                     (sample_world (flags [OptCapture]) 0 []) =
                (Ret r, say [CmStop] w1)) \/
     (res = Hang /\
      exec (sample_env (flags [OptCapture])) 0
           (sample_world (flags [OptCapture]) 0 []) = (Hang, w1))).
Proof.
  assert (Hr : ready 0 (sample_app (flags [OptCapture]) 0)
                 (sample_world (flags [OptCapture]) 0 []))
    by (repeat split; auto).
  split; [exact Hr|].
  apply (exec_always_cleans_up (sample_env (flags [OptCapture])) 0%nat
           (sample_app (flags [OptCapture]) 0)
           (sample_world (flags [OptCapture]) 0 []) Hr);
    [|reflexivity].
  unfold is_uint, UINT_MAX, UINT_BITS. simpl. lia.
Defined.

Lemma init_succeeds_iff_witness :
  exists r w' a' t,
    init (sample_env list_flags) 0 ["--list"; "--camera=1"]%string
         (sample_world (flags []) 7 []) = (Ret r, w') /\
    (r = 0 <-> true = true) /\
    out w' = [] ++ t /\
    count is_CmStart t = 1%nat /\
    heap w' !! 0%nat = Some a' /\
    options_ a' = list_flags /\
    cm_ a' = true /\
    loopUsers_ a' = 7 /\
    loop_ a' = mkLoop 0 false false.
Proof.
  apply (init_succeeds_iff (sample_env list_flags) 0%nat
           (sample_app (flags []) 7) ["--list"; "--camera=1"]%string
           (sample_world (flags []) 7 [])).
  reflexivity.
Defined.

Lemma completions_balance_starts_witness :
  exists w' a',
    drive (sample_env both_flags) 0
          ([Started; Started] ++ [Completed; Completed])
          (sample_world both_flags 0 []) = (Val tt, w') /\
    heap w' !! 0%nat = Some a' /\
    loopUsers_ a' = 0 + 2 - 2 /\
    out w' = [] ++ [LoopExit 0].
Proof.
  apply (completions_balance_starts (sample_env both_flags) 0%nat
           (sample_app both_flags 0) (sample_world both_flags 0 [])
           2%nat 2%nat); try reflexivity; vm_compute; discriminate.
Defined.

Lemma plan_steps_in_order_witness :
  exists session w1 a1,
    run_plan (sample_env both_flags) 0 (sample_world both_flags 0 []) =
      (Val session, w1) /\
    run (sample_env both_flags) 0 (sample_world both_flags 0 []) =
      (run_wait (sample_env both_flags) 0 ;; run_stop 0 session ;;
       return_ 0) w1 /\
    out w1 = [] ++ planned_trace (sample_env both_flags) both_flags /\
    heap w1 !! 0%nat = Some a1 /\
    loopUsers_ a1 = planned_users both_flags 0 /\
    non_null session = true /\
    captureDone_slot w1 = Some 0%nat /\
    hotplug_slot w1 = Some 0%nat.
Proof.
  apply (plan_steps_in_order (sample_env both_flags) 0%nat
           (sample_app both_flags 0) (sample_world both_flags 0 []));
    reflexivity.
Defined.
